(** * Node sourcing of gatsby-source-wordpress-experimental

    A shallow embedding of
    - [steps/source-nodes/create-nodes/create-nodes.js]
      ([createNodeWithSideEffects], [createGatsbyNodesFromWPGQLContentNodes]);
    - the fetch module ([fetchWPGQLContentNodes], [getContentTypeQueryInfos],
      [getGatsbyNodeTypeNames], [fetchWPGQLContentNodesByContentType],
      [fetchAndCreateAllNodes]).

    JavaScript objects are finite maps from property names to values, the
    [Set] of referenced media ids is a duplicate-free list in insertion order,
    arrays are lists.  The asynchronous code is modelled by the atomic segments
    between two [await]s; the work queue interleaves the segments of the units
    in flight under an arbitrary scheduler. *)

From Stdlib Require Import Ascii String ZArith Lia.
From stdpp Require Import base strings list gmap pretty sorting.

Local Open Scope string_scope.
Local Open Scope list_scope.
Local Open Scope nat_scope.

(** ** JavaScript values *)

#[warnings="-register-all"]
Inductive value :=
| VUndefined
| VNull
| VBool (b : bool)
| VNum (n : Z)
| VStr (s : string)
| VArr (l : list value)
| VObj (o : gmap string value).

(** Property read [o.k]: a missing property reads as [undefined]. *)
Definition get (o : gmap string value) (k : string) : value :=
  default VUndefined (o !! k).

(** Truthiness, as used by [if (node.link)] and by [||]. *)
Definition truthy (v : value) : bool :=
  match v with
  | VUndefined | VNull => false
  | VBool b => b
  | VNum n => negb (n =? 0)%Z
  | VStr EmptyString => false
  | VStr _ => true
  | VArr _ | VObj _ => true
  end.

(** [id !== v] for a string [id] (the ids captured by the regular
    expression are strings). *)
Definition strict_neq_str (id : string) (v : value) : bool :=
  match v with
  | VStr s => negb (String.eqb id s)
  | _ => true
  end.

(** [Set.prototype.add] on a set kept in insertion order. *)
Definition set_add (x : string) (s : list string) : list string :=
  if decide (x ∈ s) then s else s ++ [x].

(** ** The regular expression of the reference scan

    The pattern is the literal text [id_open] (the quoted key id, a colon
    and an opening double quote), one capture group of characters other
    than the double quote, and the literal text [id_close] (a closing double
    quote, a comma and the quoted key sourceUrl); the flags are g and m. *)

Definition dquote : ascii := "034"%char.
Definition dq : string := String dquote EmptyString.

(** The literal text before and after the capture group. *)
Definition id_open : string := dq +:+ "id" +:+ dq +:+ ":" +:+ dq.
Definition id_close : string := dq +:+ "," +:+ dq +:+ "sourceUrl" +:+ dq.

Fixpoint strip_prefix (p s : string) : option string :=
  match p with
  | EmptyString => Some s
  | String a p' =>
      match s with
      | EmptyString => None
      | String b s' => if Ascii.eqb a b then strip_prefix p' s' else None
      end
  end.

(** The capture group: the longest run of characters other than the double quote, and
    what follows it.  The group is followed by a literal double quote, so no
    shorter run can lead to a match. *)
Fixpoint span_unquoted (s : string) : string * string :=
  match s with
  | EmptyString => (EmptyString, EmptyString)
  | String c s' =>
      if Ascii.eqb c dquote then (EmptyString, s)
      else let '(cap, rest) := span_unquoted s' in (String c cap, rest)
  end.

(** A match anchored at the head of [s]: the captured group and the text
    after the match. *)
Definition match_here (s : string) : option (string * string) :=
  match strip_prefix id_open s with
  | None => None
  | Some s1 =>
      let '(cap, s2) := span_unquoted s1 in
      match strip_prefix id_close s2 with
      | None => None
      | Some s3 => Some (cap, s3)
      end
  end.

(** [execall(re, s).map(match => match.subMatches[0])]: the leftmost match
    is taken, the search resumes after it, and a position without a match is
    skipped.  Every round consumes at least one character. *)
Fixpoint execall_from (fuel : nat) (s : string) : list string :=
  match fuel with
  | O => []
  | S fuel' =>
      match match_here s with
      | Some (cap, rest) => cap :: execall_from fuel' rest
      | None =>
          match s with
          | EmptyString => []
          | String _ s' => execall_from fuel' s'
          end
      end
  end.

Definition execall_ids (s : string) : list string :=
  execall_from (S (String.length s)) s.

(** ** Data model of the fetch module *)

Record TypeInfo := {
  singularName : string;
  pluralName : string;
  nodesTypeName : string
}.

Record Settings := {
  exclude : bool;
  lazyNodes : bool
}.

Record QueryInfo := {
  typeInfo : TypeInfo;
  nodeListQueries : list string;
  settings : Settings
}.

Record ContentNodeGroup := {
  singular : string;
  plural : string;
  allNodesOfContentType : list (gmap string value)
}.

(** The arguments [fetchWPGQLContentNodes] passes to [paginatedWpNodeFetch]
    (the run-wide [url], [activity] and [helpers] are left out). *)
Record PageFetchArgs := {
  first : Z;
  after : value;
  contentTypePlural : string;
  nodeTypeName : string;
  query : string;
  fetchSettings : Settings
}.

(** ** The per-type hook

    Of the object the hook is called with, the fields that depend on the
    record; [actions], [helpers], [fetchGraphql], [typeSettings],
    [buildTypeName] and [wpStore] are the same for every call. *)

Record HookArgs := {
  actionType : string;
  remoteNode : gmap string value;
  type : value
}.

(** What the awaited hook resolves to: [undefined] (or any falsy value), or
    an object that may carry [additionalNodeIds]. *)
Inductive hook_result :=
| HUndefined
| HObject (additionalNodeIds : option (list value)).

Inductive hook_outcome :=
| HookRejected
| HookResolved (r : hook_result).

Record TypeSettings := {
  beforeChangeNode : option (HookArgs → hook_outcome)
}.

(** A promise that resolves with a value or rejects. *)
Inductive result (A : Type) :=
| Ok (a : A)
| Err.
Arguments Ok {A} a.
Arguments Err {A}.

(** ** Imported collaborators

    Everything the two modules import from elsewhere: npm packages, the host
    and modules of the plugin that are not part of this development. *)
Class Collaborators := {
  (** [fast-json-stable-stringify] *)
  stringify : gmap string value → string;
  (** [~/utils/url-to-path] *)
  urlToPath : value → value;
  (** [helpers.createContentDigest] *)
  createContentDigest : gmap string value → value;
  (** [buildTypeName], [getTypeSettingsByType] of the schema helpers *)
  buildTypeName : value → value;
  getTypeSettingsByType : value → option TypeSettings;
  (** [actions.createNode]: does the returned promise resolve? *)
  createNode : gmap string value → bool;
  (** truthiness of [pluginOptions.type.MediaItem.lazyNodes] *)
  mediaItemLazyNodes : bool;
  (** the [generalSettings] query of [fetchGraphql]: the url, or a rejection *)
  generalSettingsUrl : result string;
  (** [new RegExp(pattern, flags)] of the engine: does the constructor
      return?  It throws a SyntaxError on a text that is no pattern. *)
  newRegExp : string → string → bool;
  (** [fetchReferencedMediaItemsAndCreateNodes]: does it resolve? *)
  fetchReferencedMediaItemsAndCreateNodes : list string → bool;
  (** [paginatedWpNodeFetch]: all the records of one list query *)
  paginatedWpNodeFetch : PageFetchArgs → result (list (gmap string value));
  (** the store's [remoteSchema.nodeQueries], in [Object.values] order *)
  nodeQueries : list QueryInfo;
  (** [process.env.GATSBY_CONCURRENT_DOWNLOAD]: [None] when unset or empty,
      otherwise the integer the chunking reads the text as *)
  GATSBY_CONCURRENT_DOWNLOAD : option Z;
  (** [~/constants] *)
  CREATED_NODE_IDS : string;
  (** [helpers.cache.set]: does it resolve? *)
  cacheSet : string → list value → bool
}.

(** ** Observable events of one run *)

Inductive event :=
(** [fetchWPGQLContentNodes] is called for an entry of batch [b] *)
| EvFetchStart (b : nat) (q : QueryInfo)
(** ... and its promise resolves, or rejects *)
| EvFetchDone (b : nat) (q : QueryInfo)
| EvFetchRejected (b : nat) (q : QueryInfo)
(** the [generalSettings] query *)
| EvGeneralSettings
(** unit [u] calls the hook of its type *)
| EvBeforeChangeNode (u : nat) (args : HookArgs)
(** [createNodesActivity.setStatus] with the running count *)
| EvSetStatus (u : nat) (n : nat)
(** unit [u] calls [actions.createNode] *)
| EvCreateNode (u : nat) (node : gmap string value)
(** after the commit resolved, unit [u] pushes the id of its record *)
| EvCreated (u : nat) (id : value)
(** the promise of unit [u] rejects *)
| EvUnitRejected (u : nat)
(** [fetchReferencedMediaItemsAndCreateNodes] is called *)
| EvFetchReferenced (ids : list string)
(** [cache.set] *)
| EvCacheSet (key : string) (ids : list value).

(** The three stages of a run and the final write. *)
Definition stage (e : event) : nat :=
  match e with
  | EvFetchStart _ _ | EvFetchDone _ _ | EvFetchRejected _ _ => 0
  | EvGeneralSettings | EvBeforeChangeNode _ _ | EvSetStatus _ _
  | EvCreateNode _ _ | EvCreated _ _ | EvUnitRejected _ => 1
  | EvFetchReferenced _ => 2
  | EvCacheSet _ _ => 3
  end.

(** ** The state shared by the units of work

    [createdNodeIds], [totalSideEffectNodes] and [referencedMediaItemNodeIds]
    are created once by [createGatsbyNodesFromWPGQLContentNodes] and passed
    by reference to every unit. *)
Record Store := {
  createdNodeIds : list value;
  totalSideEffectNodes : list value;
  referencedMediaItemNodeIds : list string;
  log : list event
}.

Definition emit (e : event) (st : Store) : Store :=
  {| createdNodeIds := createdNodeIds st;
     totalSideEffectNodes := totalSideEffectNodes st;
     referencedMediaItemNodeIds := referencedMediaItemNodeIds st;
     log := log st ++ [e] |}.

Definition set_referenced (refs : list string) (st : Store) : Store :=
  {| createdNodeIds := createdNodeIds st;
     totalSideEffectNodes := totalSideEffectNodes st;
     referencedMediaItemNodeIds := refs;
     log := log st |}.

(** [createdNodeIds.push(id)] *)
Definition push_created (id : value) (st : Store) : Store :=
  {| createdNodeIds := createdNodeIds st ++ [id];
     totalSideEffectNodes := totalSideEffectNodes st;
     referencedMediaItemNodeIds := referencedMediaItemNodeIds st;
     log := log st |}.

(** [createdNodeIds.push(id) && totalSideEffectNodes.push(id)]: [push]
    returns the new length, and the second push runs when it is not zero. *)
Definition push_side_effect (st : Store) (id : value) : Store :=
  let st1 := push_created id st in
  if (0 <? length (createdNodeIds st1))%nat then
    {| createdNodeIds := createdNodeIds st1;
       totalSideEffectNodes := totalSideEffectNodes st1 ++ [id];
       referencedMediaItemNodeIds := referencedMediaItemNodeIds st1;
       log := log st1 |}
  else st1.

Section Engine.
Context `{Collaborators}.

(** ** [createNodeWithSideEffects] *)

(** Lines 36-39: [node.path] is set on the record itself. *)
Definition derive_path (node : gmap string value) : gmap string value :=
  if truthy (get node "link")
  then <["path" := urlToPath (get node "link")]> node
  else node.

(** Lines 57-59. *)
Definition matchedIds (nodeString : string) (node : gmap string value)
  : list string :=
  List.filter (λ id, strict_neq_str id (get node "id"))
              (execall_ids nodeString).

(** Lines 46-65. *)
Definition scan_references (wpgqlNodesGroup : ContentNodeGroup)
    (node : gmap string value) (referenced : list string) : list string :=
  if negb (String.eqb (plural wpgqlNodesGroup) "mediaItems") then
    let nodeString := stringify node in
    if negb mediaItemLazyNodes then
      let ids := matchedIds nodeString node in
      if (0 <? length ids)%nat
      then foldl (λ s id, set_add id s) referenced ids
      else referenced
    else referenced
  else referenced.

(** Lines 67-75: the object spread, then [id], [parent], [internal]. *)
Definition build_remoteNode (node : gmap string value) : gmap string value :=
  <["internal" :=
      VObj (<["type" := buildTypeName (get node "type")]>
           (<["contentDigest" := createContentDigest node]> ∅))]>
  (<["parent" := VNull]>
  (<["id" := get node "id"]> node)).

(** Lines 77-81: the hook of the record's type, when it is a function. *)
Definition hook_of (node : gmap string value)
  : option (HookArgs → hook_outcome) :=
  match getTypeSettingsByType (get node "type") with
  | Some typeSettings => beforeChangeNode typeSettings
  | None => None
  end.

(** Lines 82-93: the destructuring of [(await hook(...)) || {}]. *)
Definition additionalNodeIds_of (r : hook_result) : option (list value) :=
  match r with
  | HUndefined => None
  | HObject ids => ids
  end.

(** A unit of work that is suspended at an [await]. *)
Inductive cont :=
| AwaitHook (node rn : gmap string value) (o : hook_outcome)
| AwaitCommit (node rn : gmap string value).

(** One scheduled unit: the record and the group it comes from. *)
Record Task := {
  wpgqlNodesGroup : ContentNodeGroup;
  node : gmap string value
}.

(** The body of the thunk up to its first [await] (at the hook when the
    type has one, at [actions.createNode] otherwise); [u] numbers the unit
    in the log. *)
Definition createNodeWithSideEffects (u : nat) (t : Task) (st : Store)
  : Store * cont :=
  let node := derive_path (node t) in
  let st1 :=
    set_referenced
      (scan_references (wpgqlNodesGroup t) node
         (referencedMediaItemNodeIds st)) st in
  let rn := build_remoteNode node in
  match hook_of node with
  | Some hook =>
      let args := {| actionType := "CREATE_ALL";
                     remoteNode := rn;
                     type := get node "type" |} in
      (emit (EvBeforeChangeNode u args) st1, AwaitHook node rn (hook args))
  | None => (emit (EvCreateNode u rn) st1, AwaitCommit node rn)
  end.

(** Lines 95-99. *)
Definition push_additional (ids : option (list value)) (st : Store) : Store :=
  match ids with
  | Some l => if (0 <? length l)%nat then foldl push_side_effect st l else st
  | None => st
  end.

(** The rest of the thunk, one segment at a time: what runs when the
    awaited promise settles, up to the next [await]; [None] when the unit is
    over. *)
Definition resumeNodeWithSideEffects (u : nat) (c : cont) (st : Store)
  : Store * option cont :=
  match c with
  | AwaitHook node rn HookRejected => (emit (EvUnitRejected u) st, None)
  | AwaitHook node rn (HookResolved r) =>
      let st1 := push_additional (additionalNodeIds_of r) st in
      let st2 := emit (EvSetStatus u (length (totalSideEffectNodes st1))) st1 in
      (emit (EvCreateNode u rn) st2, Some (AwaitCommit node rn))
  | AwaitCommit node rn =>
      if createNode rn
      then (emit (EvCreated u (get node "id"))
              (push_created (get node "id") st), None)
      else (emit (EvUnitRejected u) st, None)
  end.

(** ** The work queue ([p-queue] with [concurrency: 2])

    The queue starts a pending unit, first in first out, whenever fewer than
    [concurrency] units are in flight, and a unit in flight resumes when the
    promise it awaits settles, in no particular order.  A unit that rejects
    only rejects the promise [add] returned, which nobody awaits: the queue
    goes on with the other units. *)

Definition concurrency : nat := 2.

Record Queue := {
  pending : list (nat * Task);
  inflight : list (nat * cont);
  store : Store
}.

Inductive action :=
| Start
| Resume (i : nat).

Definition can_start (q : Queue) : bool :=
  (length (inflight q) <? concurrency)%nat
  && (0 <? length (pending q))%nat.

Definition enabled (q : Queue) : list action :=
  (if can_start q then [Start] else [])
  ++ map Resume (seq 0 (length (inflight q))).

Definition perform (a : action) (q : Queue) : Queue :=
  match a with
  | Start =>
      match pending q with
      | [] => q
      | (u, t) :: rest =>
          let '(st, c) := createNodeWithSideEffects u t (store q) in
          {| pending := rest;
             inflight := inflight q ++ [(u, c)];
             store := st |}
      end
  | Resume i =>
      match inflight q !! i with
      | None => q
      | Some (u, c) =>
          let '(st, oc) := resumeNodeWithSideEffects u c (store q) in
          {| pending := pending q;
             inflight :=
               match oc with
               | Some c' => <[i := (u, c')]> (inflight q)
               | None => delete i (inflight q)
               end;
             store := st |}
      end
  end.

(** The scheduler picks one of the enabled actions. *)
Definition step (choice : nat) (q : Queue) : Queue :=
  match enabled q !! (choice mod length (enabled q))%nat with
  | Some a => perform a q
  | None => q
  end.

Fixpoint run (sched : nat → nat) (k fuel : nat) (q : Queue) : Queue :=
  match fuel with
  | O => q
  | S fuel' => run sched (S k) fuel' (step (sched k) q)
  end.

(** A queue is idle when nothing is pending or in flight. *)
Definition idle (q : Queue) : Prop := pending q = [] ∧ inflight q = [].

(** Lines 150-169: one unit per record of every group, in order. *)
Definition tasks_of (groups : list ContentNodeGroup) : list Task :=
  flat_map (λ g, map (λ n, {| wpgqlNodesGroup := g; node := n |})
                     (allNodesOfContentType g)) groups.

Definition index_tasks (ts : list Task) : list (nat * Task) :=
  zip (seq 0 (length ts)) ts.

Definition initial_queue (ts : list Task) (st : Store) : Queue :=
  {| pending := index_tasks ts; inflight := []; store := st |}.

(** Every unit has at most three segments. *)
Definition drain_fuel (ts : list Task) : nat := 3 * length ts.

(** [await createNodesQueue.onIdle()] *)
Definition onIdle (sched : nat → nat) (ts : list Task) (st : Store) : Queue :=
  run sched 0 (drain_fuel ts) (initial_queue ts st).

(** ** [createGatsbyNodesFromWPGQLContentNodes] *)

Definition empty_store : Store :=
  {| createdNodeIds := [];
     totalSideEffectNodes := [];
     referencedMediaItemNodeIds := [];
     log := [EvGeneralSettings] |}.

(** Lines 132-136: the text the template literal hands to [RegExp], with
    the escapes of the literal resolved.  The expression itself is never
    used; its construction, before anything is queued, throws when the url
    of the general settings does not fit into a pattern. *)
Definition anchorTagRegex_source (wpUrl : string) : string :=
  "<a[\s]+[^>]*?href[\s]?=[" +:+ dq +:+ "'\\]*(" +:+ wpUrl +:+ ".*?)["
  +:+ dq +:+ "'\\]*.*?>([^<]+|.*?)?</a>".

Definition createGatsbyNodesFromWPGQLContentNodes (sched : nat → nat)
    (wpgqlNodesByContentType : list ContentNodeGroup)
  : list event * result (list value) :=
  match generalSettingsUrl with
  | Err => ([EvGeneralSettings], Err)
  | Ok wpUrl =>
      if newRegExp (anchorTagRegex_source wpUrl) "gim" then
        let st :=
          store (onIdle sched (tasks_of wpgqlNodesByContentType)
                   empty_store) in
        let referencedMediaItemNodeIdsArray := referencedMediaItemNodeIds st in
        if negb mediaItemLazyNodes
           && (0 <? length referencedMediaItemNodeIdsArray)%nat
        then
          let l :=
            log st ++ [EvFetchReferenced referencedMediaItemNodeIdsArray] in
          if fetchReferencedMediaItemsAndCreateNodes
               referencedMediaItemNodeIdsArray
          then (l, Ok (createdNodeIds st
                       ++ map VStr referencedMediaItemNodeIdsArray))
          else (l, Err)
        else (log st, Ok (createdNodeIds st))
      else ([EvGeneralSettings], Err)
  end.

End Engine.

(** ** [chunk] of lodash

    The size is clamped at zero from below; an empty array or a size below
    one gives no chunk at all. *)
Fixpoint chunk_go {A} (fuel size : nat) (l : list A) : list (list A) :=
  match fuel with
  | O => []
  | S fuel' =>
      match l with
      | [] => []
      | _ :: _ => take size l :: chunk_go fuel' size (drop size l)
      end
  end.

Definition chunk {A} (array : list A) (size : Z) : list (list A) :=
  let n := Z.to_nat (Z.max size 0) in
  if (length array =? 0)%nat || (n <? 1)%nat then []
  else chunk_go (length array) n array.

(** The order in which the promises of one [Promise.all] settle: the
    scheduler picks, one after the other, among those still outstanding. *)
Fixpoint completion_order {A} (picks : nat → nat) (fuel : nat) (l : list A)
  : list A :=
  match fuel with
  | O => []
  | S fuel' =>
      let i := (picks fuel' mod length l)%nat in
      match l !! i with
      | Some x => x :: completion_order picks fuel' (delete i l)
      | None => []
      end
  end.

Section Fetch.
Context `{Collaborators}.

(** ** [fetchWPGQLContentNodes]

    The activity timer (started and ended when [verbose] is set) only
    reports; it is left out. *)

Definition page_args (queryInfo : QueryInfo) (nodeListQuery : string)
  : PageFetchArgs :=
  {| first := 100;
     after := VNull;
     contentTypePlural := pluralName (typeInfo queryInfo);
     nodeTypeName := nodesTypeName (typeInfo queryInfo);
     query := nodeListQuery;
     fetchSettings := settings queryInfo |}.

(** Lines 29-46: the list queries are fetched one after the other. *)
Fixpoint fetch_list_queries (queryInfo : QueryInfo) (queries : list string)
    (allNodesOfContentType : list (gmap string value))
  : result (list (gmap string value)) :=
  match queries with
  | [] => Ok allNodesOfContentType
  | nodeListQuery :: rest =>
      match paginatedWpNodeFetch (page_args queryInfo nodeListQuery) with
      | Err => Err
      | Ok contentNodes =>
          fetch_list_queries queryInfo rest
            (allNodesOfContentType ++ contentNodes)
      end
  end.

(** [None] stands for the [false] of line 60. *)
Definition fetchWPGQLContentNodes (queryInfo : QueryInfo)
  : result (option ContentNodeGroup) :=
  match fetch_list_queries queryInfo (nodeListQueries queryInfo) [] with
  | Err => Err
  | Ok allNodesOfContentType =>
      if (0 <? length allNodesOfContentType)%nat
      then Ok (Some {| singular := singularName (typeInfo queryInfo);
                       plural := pluralName (typeInfo queryInfo);
                       allNodesOfContentType := allNodesOfContentType |})
      else Ok None
  end.

(** ** [getContentTypeQueryInfos] *)
Definition getContentTypeQueryInfos : list QueryInfo :=
  List.filter (λ q, negb (exclude (settings q))) nodeQueries.

(** ** [getGatsbyNodeTypeNames] *)
Definition getGatsbyNodeTypeNames : list string :=
  map (λ query, nodesTypeName (typeInfo query)) getContentTypeQueryInfos.

(** ** [fetchWPGQLContentNodesByContentType] *)

(** Lines 100-108: the entries for which the callback returns at once. *)
Definition skipped_upfront (queryInfo : QueryInfo) : bool :=
  lazyNodes (settings queryInfo)
  || (negb (lazyNodes (settings queryInfo))
      && String.eqb (nodesTypeName (typeInfo queryInfo)) "MediaItem").

Definition fetched_upfront (queries : list QueryInfo) : list QueryInfo :=
  List.filter (λ q, negb (skipped_upfront q)) queries.

(** Line 94. *)
Definition chunkSize : Z := default 50%Z GATSBY_CONCURRENT_DOWNLOAD.

(** What the settling of one fetch of batch [b] shows. *)
Definition settle (b : nat) (queryInfo : QueryInfo) : event :=
  match fetchWPGQLContentNodes queryInfo with
  | Ok _ => EvFetchDone b queryInfo
  | Err => EvFetchRejected b queryInfo
  end.

(** The callbacks of one batch settle in the order [completed]; a fetch
    that yields a group pushes it, and the first rejection rejects the
    [Promise.all].  The other fetches of the batch are in flight by then
    and go on to settle, after the function itself has rejected: what they
    push is not read any more. *)
Fixpoint join_batch (b : nat) (completed : list QueryInfo)
    (contentNodeGroups : list ContentNodeGroup)
  : list event * result (list ContentNodeGroup) :=
  match completed with
  | [] => ([], Ok contentNodeGroups)
  | queryInfo :: rest =>
      match fetchWPGQLContentNodes queryInfo with
      | Err => (EvFetchRejected b queryInfo :: map (settle b) rest, Err)
      | Ok contentNodeGroup =>
          let groups :=
            match contentNodeGroup with
            | Some g => contentNodeGroups ++ [g]
            | None => contentNodeGroups
            end in
          let '(l, r) := join_batch b rest groups in
          (EvFetchDone b queryInfo :: l, r)
      end
  end.

(** Lines 97-117: every callback of a batch runs up to its first [await]
    before any of them settles; the next batch waits for the join. *)
Fixpoint fetch_batches (order : nat → nat → nat) (b : nat)
    (chunkedQueries : list (list QueryInfo))
    (contentNodeGroups : list ContentNodeGroup)
  : list event * result (list ContentNodeGroup) :=
  match chunkedQueries with
  | [] => ([], Ok contentNodeGroups)
  | queries :: rest =>
      let started := fetched_upfront queries in
      let completed := completion_order (order b) (length started) started in
      let '(l1, r1) := join_batch b completed contentNodeGroups in
      match r1 with
      | Err => (map (EvFetchStart b) started ++ l1, Err)
      | Ok groups =>
          let '(l2, r2) := fetch_batches order (S b) rest groups in
          (map (EvFetchStart b) started ++ l1 ++ l2, r2)
      end
  end.

Definition fetchWPGQLContentNodesByContentType (order : nat → nat → nat)
  : list event * result (list ContentNodeGroup) :=
  fetch_batches order 0 (chunk getContentTypeQueryInfos chunkSize) [].

(** ** [fetchAndCreateAllNodes] *)
Definition fetchAndCreateAllNodes (order : nat → nat → nat)
    (sched : nat → nat) : list event * result unit :=
  let '(l1, r1) := fetchWPGQLContentNodesByContentType order in
  match r1 with
  | Err => (l1, Err)
  | Ok wpgqlNodesByContentType =>
      let '(l2, r2) :=
        createGatsbyNodesFromWPGQLContentNodes sched
          wpgqlNodesByContentType in
      match r2 with
      | Err => (l1 ++ l2, Err)
      | Ok createdNodeIds =>
          (l1 ++ l2 ++ [EvCacheSet CREATED_NODE_IDS createdNodeIds],
           if cacheSet CREATED_NODE_IDS createdNodeIds then Ok () else Err)
      end
  end.

End Fetch.


(** ** What a unit of work is expected to do

    The life of a unit, read off [createNodeWithSideEffects] segment by
    segment.  The queue properties below relate the shared state after any
    interleaving to these per-unit summaries. *)
Section UnitSummary.
Context `{Collaborators}.

Definition hook_args (node rn : gmap string value) : HookArgs :=
  {| actionType := "CREATE_ALL"; remoteNode := rn; type := get node "type" |}.

(** Where the first segment of a unit suspends. *)
Definition start_cont (t : Task) : cont :=
  let node := derive_path (node t) in
  let rn := build_remoteNode node in
  match hook_of node with
  | Some hook => AwaitHook node rn (hook (hook_args node rn))
  | None => AwaitCommit node rn
  end.

(** The call the first segment ends with. *)
Definition start_event (u : nat) (t : Task) : event :=
  let node := derive_path (node t) in
  let rn := build_remoteNode node in
  match hook_of node with
  | Some hook => EvBeforeChangeNode u (hook_args node rn)
  | None => EvCreateNode u rn
  end.

(** Where a resumed unit suspends next, if it does. *)
Definition next_cont (c : cont) : option cont :=
  match c with
  | AwaitHook node rn (HookResolved _) => Some (AwaitCommit node rn)
  | AwaitHook _ _ HookRejected => None
  | AwaitCommit _ _ => None
  end.

(** What one resumed segment pushes on [createdNodeIds] and on
    [totalSideEffectNodes], and the calls it logs (progress reports
    aside). *)
Definition resume_created (c : cont) : list value :=
  match c with
  | AwaitHook _ _ (HookResolved r) => default [] (additionalNodeIds_of r)
  | AwaitHook _ _ HookRejected => []
  | AwaitCommit node rn => if createNode rn then [get node "id"] else []
  end.

Definition resume_side_effects (c : cont) : list value :=
  match c with
  | AwaitHook _ _ (HookResolved r) => default [] (additionalNodeIds_of r)
  | _ => []
  end.

Definition resume_events (u : nat) (c : cont) : list event :=
  match c with
  | AwaitHook _ rn (HookResolved _) => [EvCreateNode u rn]
  | AwaitHook _ _ HookRejected => [EvUnitRejected u]
  | AwaitCommit node rn =>
      if createNode rn then [EvCreated u (get node "id")]
      else [EvUnitRejected u]
  end.

Definition and_then {A} (f : cont → list A) (c : cont) : list A :=
  f c ++ from_option f [] (next_cont c).

(** The remaining life of a suspended unit, and the whole life of a unit. *)
Definition cont_created : cont → list value := and_then resume_created.
Definition cont_side_effects : cont → list value :=
  and_then resume_side_effects.
Definition cont_events (u : nat) : cont → list event :=
  and_then (resume_events u).

Definition unit_created (t : Task) : list value :=
  cont_created (start_cont t).
Definition unit_side_effects (t : Task) : list value :=
  cont_side_effects (start_cont t).
Definition unit_events (u : nat) (t : Task) : list event :=
  start_event u t :: cont_events u (start_cont t).

Definition hook_rejects (t : Task) : bool :=
  match start_cont t with
  | AwaitHook _ _ HookRejected => true
  | _ => false
  end.

(** The segments a suspended unit still has to run. *)
Definition cont_weight (c : cont) : nat :=
  match next_cont c with
  | Some _ => 2
  | None => 1
  end.

Definition weight (q : Queue) : nat :=
  3 * length (pending q)
  + sum_list_with (λ uc, cont_weight uc.2) (inflight q).

(** The scans the pending units will run, in queue order. *)
Definition scan_pending (p : list (nat * Task)) (referenced : list string)
  : list string :=
  foldl (λ r ut, scan_references (wpgqlNodesGroup ut.2)
                   (derive_path (node ut.2)) r) referenced p.

(** One step of the work queue: a pending unit starts, or a unit in
    flight resumes. *)
Inductive qstep : Queue → Queue → Prop :=
| qstep_start q u t rest :
    pending q = (u, t) :: rest →
    qstep q {| pending := rest;
               inflight := inflight q ++ [(u, start_cont t)];
               store := (createNodeWithSideEffects u t (store q)).1 |}
| qstep_resume q u c l1 l2 :
    inflight q = l1 ++ (u, c) :: l2 →
    qstep q {| pending := pending q;
               inflight := l1 ++ option_list (pair u <$> next_cont c) ++ l2;
               store := (resumeNodeWithSideEffects u c (store q)).1 |}.

End UnitSummary.

(** The unit an event belongs to.  Progress reports are left out: the count
    they show depends on the interleaving. *)
Definition unit_of (e : event) : option nat :=
  match e with
  | EvBeforeChangeNode u _ | EvCreateNode u _ | EvCreated u _
  | EvUnitRejected u => Some u
  | _ => None
  end.

(** The events of unit [u] in a log, in the order of the log. *)
Definition events_of (u : nat) (l : list event) : list event :=
  filter (λ e, unit_of e = Some u) l.

(** The entries started and completed in batch [b], in the order of the log. *)
Definition starts_of (b : nat) (l : list event) : list QueryInfo :=
  omap (λ e, match e with
             | EvFetchStart b' q => if decide (b' = b) then Some q else None
             | _ => None
             end) l.

Definition dones_of (b : nat) (l : list event) : list QueryInfo :=
  omap (λ e, match e with
             | EvFetchDone b' q => if decide (b' = b) then Some q else None
             | _ => None
             end) l.

Section Potentials.
Context `{Collaborators}.

(** What a list of the shared state holds once the units in flight and
    the pending units have run, up to the order: [field] is the list and
    [f] what one resumed segment appends to it. *)
Definition potential (field : Store → list value) (f : cont → list value)
    (q : Queue) : list value :=
  field (store q)
  ++ (inflight q ≫= λ uc, and_then f uc.2)
  ++ (pending q ≫= λ ut, and_then f (start_cont ut.2)).

(** The events unit [u] still has to log. *)
Definition remaining_events (u : nat) (q : Queue) : list event :=
  (inflight q ≫= λ uc, if decide (uc.1 = u) then cont_events u uc.2 else [])
  ++ (pending q ≫= λ ut, if decide (ut.1 = u) then unit_events u ut.2 else []).

(** The tags of the units that are not over. *)
Definition tags (q : Queue) : list nat := (inflight q).*1 ++ (pending q).*1.

End Potentials.

(** The batch a fetch event belongs to. *)
Definition batch_no (e : event) : nat :=
  match e with
  | EvFetchStart b _ | EvFetchDone b _ | EvFetchRejected b _ => b
  | _ => 0
  end.

Section FetchSummary.
Context `{Collaborators}.

(** The entries that are fetched upfront. *)
Definition eligible (q : QueryInfo) : Prop :=
  exclude (settings q) = false
  ∧ lazyNodes (settings q) = false
  ∧ nodesTypeName (typeInfo q) ≠ "MediaItem".

(** The group a resolved fetch pushes, if any. *)
Definition group_of (q : QueryInfo) : option ContentNodeGroup :=
  match fetchWPGQLContentNodes q with
  | Ok (Some g) => Some g
  | _ => None
  end.

Definition completed_batch (order : nat → nat → nat) (b : nat)
    (queries : list QueryInfo) : list QueryInfo :=
  completion_order (order b) (length (fetched_upfront queries))
    (fetched_upfront queries).

(** The log of a run of the batches in which no fetch rejects. *)
Fixpoint batches_log (order : nat → nat → nat) (b : nat)
    (chunkedQueries : list (list QueryInfo)) : list event :=
  match chunkedQueries with
  | [] => []
  | queries :: rest =>
      map (EvFetchStart b) (fetched_upfront queries)
      ++ map (EvFetchDone b) (completed_batch order b queries)
      ++ batches_log order (S b) rest
  end.

End FetchSummary.

Section FetchCompletions.
Context `{Collaborators}.

(** The entries of all batches in the order their fetches settle. *)
Fixpoint batches_completed (order : nat → nat → nat) (b : nat)
    (chunkedQueries : list (list QueryInfo)) : list QueryInfo :=
  match chunkedQueries with
  | [] => []
  | queries :: rest =>
      completed_batch order b queries ++ batches_completed order (S b) rest
  end.

End FetchCompletions.


(** A text without any double quote. *)
Fixpoint unquoted (s : string) : bool :=
  match s with
  | EmptyString => true
  | String c s' => negb (Ascii.eqb c dquote) && unquoted s'
  end.

(** The nodes unit [u] passes to [actions.createNode], in the order of the
    log. *)
Definition creates_of (u : nat) (l : list event) : list (gmap string value) :=
  omap (λ e, match e with
             | EvCreateNode u' rn => if decide (u' = u) then Some rn else None
             | _ => None
             end) l.

(** The rejection of a fetch. *)
Definition is_rejected (e : event) : bool :=
  match e with
  | EvFetchRejected _ _ => true
  | _ => false
  end.

(** ** A concrete host, for running the model

    [stable_stringify] follows fast-json-stable-stringify on JSON data:
    object keys sorted, properties whose value is [undefined] dropped,
    [undefined] array items written as null, strings escaped as
    [JSON.stringify] does. *)
Module Demo.

Definition backslash : string := "\".

Definition hex_digit (n : nat) : ascii :=
  nth n (list_ascii_of_string "0123456789abcdef") "0"%char.

Definition escape_char (c : ascii) : string :=
  let n := nat_of_ascii c in
  if Ascii.eqb c dquote then backslash +:+ dq
  else if Ascii.eqb c "\"%char then backslash +:+ backslash
  else if (n =? 8)%nat then backslash +:+ "b"
  else if (n =? 9)%nat then backslash +:+ "t"
  else if (n =? 10)%nat then backslash +:+ "n"
  else if (n =? 12)%nat then backslash +:+ "f"
  else if (n =? 13)%nat then backslash +:+ "r"
  else if (n <? 32)%nat then
    backslash +:+ "u00"
    +:+ String (hex_digit (n / 16)) (String (hex_digit (n mod 16)) EmptyString)
  else String c EmptyString.

Fixpoint escape (s : string) : string :=
  match s with
  | EmptyString => EmptyString
  | String c s' => escape_char c +:+ escape s'
  end.

Definition quoted (s : string) : string := dq +:+ escape s +:+ dq.

Definition join_comma (l : list string) : string :=
  match l with
  | [] => EmptyString
  | x :: rest => foldl (λ acc y, acc +:+ "," +:+ y) x rest
  end.

Definition key_le (a b : string * string) : Prop :=
  Is_true (String.leb a.1 b.1).

#[local] Instance key_le_dec : RelDecision key_le.
Proof. intros a b. unfold key_le. apply _. Defined.

Fixpoint stable_stringify (v : value) : option string :=
  match v with
  | VUndefined => None
  | VNull => Some "null"
  | VBool b => Some (if b then "true" else "false")
  | VNum n => Some (pretty n)
  | VStr s => Some (quoted s)
  | VArr l =>
      Some ("[" +:+
            join_comma (map (λ x, default "null" (stable_stringify x)) l)
            +:+ "]")
  | VObj o =>
      let fields :=
        map_fold (λ k x acc,
                    match stable_stringify x with
                    | Some r => (k, r) :: acc
                    | None => acc
                    end) [] o in
      Some ("{" +:+
            join_comma (map (λ kr, quoted kr.1 +:+ ":" +:+ kr.2)
                            (merge_sort key_le fields))
            +:+ "}")
  end.

Definition obj (fields : list (string * value)) : gmap string value :=
  list_to_map fields.

(** The path of a url: what follows the scheme and the host. *)
Fixpoint drop_until_slash (s : string) : string :=
  match s with
  | EmptyString => "/"
  | String c s' => if Ascii.eqb c "/"%char then s else drop_until_slash s'
  end.

Fixpoint after_scheme (fuel : nat) (s : string) : string :=
  match fuel, s with
  | S fuel', String c s' =>
      match strip_prefix "://" s with
      | Some rest => rest
      | None => after_scheme fuel' s'
      end
  | _, _ => s
  end.

Definition url_path (v : value) : value :=
  match v with
  | VStr s => VStr (drop_until_slash (after_scheme (String.length s) s))
  | _ => VUndefined
  end.

Definition type_name (v : value) : value :=
  match v with
  | VStr s => VStr ("Wp" +:+ s)
  | _ => VUndefined
  end.

(** Posts have a hook that reports two nodes it created itself, pages a
    hook that resolves to [undefined], menus a hook that resolves to an
    object without [additionalNodeIds], users a hook that rejects. *)
Definition type_settings (v : value) : option TypeSettings :=
  match v with
  | VStr "Post" =>
      Some {| beforeChangeNode :=
                Some (λ _, HookResolved (HObject (Some [VStr "a"; VStr "b"]))) |}
  | VStr "Page" =>
      Some {| beforeChangeNode := Some (λ _, HookResolved HUndefined) |}
  | VStr "Menu" =>
      Some {| beforeChangeNode := Some (λ _, HookResolved (HObject None)) |}
  | VStr "User" =>
      Some {| beforeChangeNode := Some (λ _, HookRejected) |}
  | VStr "Tag" => Some {| beforeChangeNode := None |}
  | _ => None
  end.

Definition media (id url : string) : value :=
  VObj (obj [("id", VStr id); ("sourceUrl", VStr url)]).

(** A post that embeds two media items and carries a [sourceUrl] of its
    own next to its id. *)
Definition post1 : gmap string value :=
  obj [("id", VStr "p1");
       ("sourceUrl", VStr "https://wp.test/p1");
       ("type", VStr "Post");
       ("title", VStr "Hello");
       ("featuredImage", media "m1" "https://wp.test/m1.png");
       ("author", VObj (obj [("name", VStr "ann");
                             ("avatar", media "m2" "https://wp.test/m2.png")]))].

Definition post2 : gmap string value :=
  obj [("id", VStr "p2");
       ("type", VStr "Post");
       ("link", VStr "https://wp.test/2020/hello/");
       ("parent", VStr "p1");
       ("featuredImage", media "m1" "https://wp.test/m1.png")].

Definition page1 : gmap string value :=
  obj [("id", VStr "g1"); ("type", VStr "Page");
       ("link", VStr "https://wp.test/about/")].

Definition menu1 : gmap string value :=
  obj [("id", VStr "n1"); ("type", VStr "Menu")].

Definition tag1 : gmap string value :=
  obj [("id", VStr "t1"); ("type", VStr "Tag")].

Definition info (s p n : string) : TypeInfo :=
  {| singularName := s; pluralName := p; nodesTypeName := n |}.

Definition entry (s p n : string) (excl lzy : bool) : QueryInfo :=
  {| typeInfo := info s p n;
     nodeListQueries := ["query " +:+ p];
     settings := {| exclude := excl; lazyNodes := lzy |} |}.

Definition posts : QueryInfo := entry "post" "posts" "Post" false false.
Definition pages : QueryInfo := entry "page" "pages" "Page" false false.
Definition tags : QueryInfo := entry "tag" "tags" "Tag" false false.
Definition menus : QueryInfo := entry "menu" "menus" "Menu" false false.
Definition comments : QueryInfo := entry "comment" "comments" "Comment" false true.
Definition users : QueryInfo := entry "user" "users" "User" true false.
Definition events : QueryInfo := entry "event" "events" "Event" false false.
Definition mediaItems : QueryInfo :=
  entry "mediaItem" "mediaItems" "MediaItem" false false.

(** The remote source: two posts, one page, one menu and no tag. *)
Definition remote (args : PageFetchArgs) : result (list (gmap string value)) :=
  match contentTypePlural args with
  | "posts" => Ok [post1; post2]
  | "pages" => Ok [page1]
  | "menus" => Ok [menu1]
  | "tags" => Ok []
  | _ => Err
  end.

(** The stand-in for the constructor of regular expressions accepts the
    patterns whose round brackets are balanced. *)
Fixpoint balanced (depth : nat) (pattern : string) : bool :=
  match pattern with
  | EmptyString => (depth =? 0)%nat
  | String c pattern' =>
      if Ascii.eqb c "("%char then balanced (S depth) pattern'
      else if Ascii.eqb c ")"%char then
        match depth with
        | O => false
        | S depth' => balanced depth' pattern'
        end
      else balanced depth pattern'
  end.

Definition host (lzy : bool) (env : option Z) (catalog : list QueryInfo)
  : Collaborators :=
  {| stringify := λ node, default EmptyString (stable_stringify (VObj node));
     urlToPath := url_path;
     createContentDigest :=
       λ node, VStr (default EmptyString (stable_stringify (VObj node)));
     buildTypeName := type_name;
     getTypeSettingsByType := type_settings;
     createNode := λ _, true;
     mediaItemLazyNodes := lzy;
     generalSettingsUrl := Ok "https://wp.test";
     newRegExp := λ pattern _, balanced 0 pattern;
     fetchReferencedMediaItemsAndCreateNodes := λ _, true;
     paginatedWpNodeFetch := remote;
     nodeQueries := catalog;
     GATSBY_CONCURRENT_DOWNLOAD := env;
     CREATED_NODE_IDS := "CREATED_NODE_IDS";
     cacheSet := λ _ _, true |}.

(** A host whose commit of the second post rejects. *)
Definition strict_host : Collaborators :=
  {| stringify := λ node, default EmptyString (stable_stringify (VObj node));
     urlToPath := url_path;
     createContentDigest :=
       λ node, VStr (default EmptyString (stable_stringify (VObj node)));
     buildTypeName := type_name;
     getTypeSettingsByType := type_settings;
     createNode :=
       λ rn, match get rn "id" with VStr "p2" => false | _ => true end;
     mediaItemLazyNodes := false;
     generalSettingsUrl := Ok "https://wp.test";
     newRegExp := λ pattern _, balanced 0 pattern;
     fetchReferencedMediaItemsAndCreateNodes := λ _, true;
     paginatedWpNodeFetch := remote;
     nodeQueries := [];
     GATSBY_CONCURRENT_DOWNLOAD := None;
     CREATED_NODE_IDS := "CREATED_NODE_IDS";
     cacheSet := λ _ _, true |}.

(** A host whose general settings give a url that does not fit into a
    pattern. *)
Definition broken_url_host : Collaborators :=
  {| stringify := λ node, default EmptyString (stable_stringify (VObj node));
     urlToPath := url_path;
     createContentDigest :=
       λ node, VStr (default EmptyString (stable_stringify (VObj node)));
     buildTypeName := type_name;
     getTypeSettingsByType := type_settings;
     createNode := λ _, true;
     mediaItemLazyNodes := false;
     generalSettingsUrl := Ok "https://wp.test/(";
     newRegExp := λ pattern _, balanced 0 pattern;
     fetchReferencedMediaItemsAndCreateNodes := λ _, true;
     paginatedWpNodeFetch := remote;
     nodeQueries := [posts];
     GATSBY_CONCURRENT_DOWNLOAD := None;
     CREATED_NODE_IDS := "CREATED_NODE_IDS";
     cacheSet := λ _ _, true |}.

Definition catalog : list QueryInfo :=
  [posts; comments; pages; users; mediaItems; tags; menus].

Definition fifo : nat → nat := λ _, 0.
Definition lifo : nat → nat := λ k, k.
Definition in_order : nat → nat → nat := λ _ _, 0.
Definition lifo_batches : nat → nat → nat := λ _ k, k.

Definition posts_group : ContentNodeGroup :=
  {| singular := "post"; plural := "posts";
     allNodesOfContentType := [post1; post2] |}.

Definition pages_group : ContentNodeGroup :=
  {| singular := "page"; plural := "pages";
     allNodesOfContentType := [page1] |}.

Definition menus_group : ContentNodeGroup :=
  {| singular := "menu"; plural := "menus";
     allNodesOfContentType := [menu1] |}.

Definition user1 : gmap string value :=
  obj [("id", VStr "u1"); ("type", VStr "User")].

Definition tags_group : ContentNodeGroup :=
  {| singular := "tag"; plural := "tags";
     allNodesOfContentType := [tag1] |}.

Definition users_group : ContentNodeGroup :=
  {| singular := "user"; plural := "users";
     allNodesOfContentType := [user1; tag1] |}.

Definition task (g : ContentNodeGroup) (n : gmap string value) : Task :=
  {| wpgqlNodesGroup := g; node := n |}.

End Demo.


(** * Properties *)

(** ** The scan of the serialized record *)

Lemma strip_prefix_length p s r :
  strip_prefix p s = Some r → String.length s = String.length p + String.length r.
Proof.
  revert s. induction p as [|a p IH]; intros s Hs; simpl in *.
  - by inversion Hs.
  - destruct s as [|b s]; [done|]. destruct (Ascii.eqb a b); [|done].
    simpl. by rewrite (IH _ Hs).
Qed.

Lemma span_unquoted_length s :
  String.length s
  = String.length (span_unquoted s).1 + String.length (span_unquoted s).2.
Proof.
  induction s as [|c s IH]; simpl; [done|].
  destruct (Ascii.eqb c dquote); simpl; [done|].
  destruct (span_unquoted s) as [cap rest]. simpl in *. lia.
Qed.

(** A match is never empty: the search always moves forward. *)
Lemma match_here_shorter s cap rest :
  match_here s = Some (cap, rest) → String.length rest < String.length s.
Proof.
  unfold match_here. intros Hm.
  destruct (strip_prefix id_open s) as [s1|] eqn:H1; [|done].
  pose proof (span_unquoted_length s1) as Hspan.
  destruct (span_unquoted s1) as [cap' s2].
  destruct (strip_prefix id_close s2) as [s3|] eqn:H3; [|done].
  apply strip_prefix_length in H1, H3. inversion Hm; subst.
  simpl in *. lia.
Qed.

(** The fuel of [execall_ids] is enough: more fuel finds the same matches. *)
Lemma execall_from_fuel n m s :
  String.length s < n → String.length s < m →
  execall_from n s = execall_from m s.
Proof.
  revert m s. induction n as [|n IH]; intros m s Hn Hm; [lia|].
  destruct m as [|m]; [lia|]. simpl.
  destruct (match_here s) as [[cap rest]|] eqn:Hmatch.
  - apply match_here_shorter in Hmatch. f_equal. apply IH; lia.
  - destruct s as [|c s]; [done|]. simpl in *. apply IH; lia.
Qed.

Lemma execall_from_S fuel s :
  execall_from (S fuel) s
  = match match_here s with
    | Some (cap, rest) => cap :: execall_from fuel rest
    | None =>
        match s with
        | EmptyString => []
        | String _ s' => execall_from fuel s'
        end
    end.
Proof. done. Qed.

(** The search of a text that starts with a match: the captured id, then
    the matches of what follows. *)
Lemma execall_ids_match s cap rest :
  match_here s = Some (cap, rest) → execall_ids s = cap :: execall_ids rest.
Proof.
  intros Hm. unfold execall_ids. rewrite execall_from_S, Hm. f_equal.
  apply match_here_shorter in Hm. apply execall_from_fuel; lia.
Qed.

Lemma execall_ids_skip c s :
  match_here (String c s) = None → execall_ids (String c s) = execall_ids s.
Proof. intros Hm. unfold execall_ids. by rewrite execall_from_S, Hm. Qed.

Lemma strict_neq_str_spec id v : strict_neq_str id v = true ↔ VStr id ≠ v.
Proof.
  destruct v; simpl; try (split; [discriminate|done]).
  rewrite negb_true_iff. split.
  - intros Hne [= ->]. by rewrite String.eqb_refl in Hne.
  - intros Hne. apply String.eqb_neq. congruence.
Qed.

Lemma elem_of_set_add x y s : x ∈ set_add y s ↔ x ∈ s ∨ x = y.
Proof.
  unfold set_add. case_decide.
  - split; [tauto|]. intros [?| ->]; done.
  - by rewrite elem_of_app, list_elem_of_singleton.
Qed.

Lemma NoDup_set_add y s : NoDup s → NoDup (set_add y s).
Proof.
  intros Hs. unfold set_add. case_decide; [done|].
  apply NoDup_app. split_and!; [done| |apply NoDup_singleton].
  intros x Hx ->%list_elem_of_singleton. done.
Qed.

Lemma elem_of_foldl_set_add ids s x :
  x ∈ foldl (λ s id, set_add id s) s ids ↔ x ∈ s ∨ x ∈ ids.
Proof.
  revert s. induction ids as [|id ids IH]; intros s; simpl.
  - rewrite elem_of_nil. tauto.
  - rewrite IH, elem_of_set_add, elem_of_cons. tauto.
Qed.

Lemma NoDup_foldl_set_add ids s :
  NoDup s → NoDup (foldl (λ s id, set_add id s) s ids).
Proof.
  revert s. induction ids as [|id ids IH]; intros s Hs; simpl; [done|].
  by apply IH, NoDup_set_add.
Qed.

Lemma elem_of_matchedIds nodeString node x :
  x ∈ matchedIds nodeString node
  ↔ x ∈ execall_ids nodeString ∧ VStr x ≠ get node "id".
Proof.
  unfold matchedIds.
  rewrite !list_elem_of_In, filter_In, strict_neq_str_spec. done.
Qed.

Section ScanProperties.
Context `{Collaborators}.

Lemma scan_references_media g node referenced :
  plural g = "mediaItems" → scan_references g node referenced = referenced.
Proof. intros Hg. unfold scan_references. by rewrite Hg. Qed.

Lemma scan_references_lazy g node referenced :
  mediaItemLazyNodes = true → scan_references g node referenced = referenced.
Proof.
  intros Hl. unfold scan_references. rewrite Hl. simpl.
  by destruct (negb _).
Qed.

Lemma scan_references_eager g node referenced :
  plural g ≠ "mediaItems" → mediaItemLazyNodes = false →
  scan_references g node referenced
  = foldl (λ s id, set_add id s) referenced
          (matchedIds (stringify node) node).
Proof.
  intros Hg Hl. unfold scan_references. rewrite Hl. simpl.
  apply String.eqb_neq in Hg. rewrite Hg. simpl.
  destruct (matchedIds _ _); done.
Qed.

Lemma NoDup_scan_references g node referenced :
  NoDup referenced → NoDup (scan_references g node referenced).
Proof.
  intros Hnd. unfold scan_references.
  repeat case_match; try done. by apply NoDup_foldl_set_add.
Qed.

Lemma createNodeWithSideEffects_referenced u t st :
  referencedMediaItemNodeIds (createNodeWithSideEffects u t st).1
  = scan_references (wpgqlNodesGroup t) (derive_path (node t))
      (referencedMediaItemNodeIds st).
Proof. unfold createNodeWithSideEffects. by destruct (hook_of _). Qed.

End ScanProperties.

(** C1 (as amended): for a record of a group other than the media group the
    reference scan runs exactly when the MediaItem setting is eager (not
    lazy): under the lazy setting the set of referenced ids is left as it
    was, under the eager setting it gains exactly the ids captured in the
    serialized record that differ from the record's own id. *)
Theorem scan_runs_when_media_eager `{Collaborators} u t st :
  plural (wpgqlNodesGroup t) ≠ "mediaItems" →
  let record := derive_path (node t) in
  let referenced := referencedMediaItemNodeIds (createNodeWithSideEffects u t st).1 in
  (mediaItemLazyNodes = true → referenced = referencedMediaItemNodeIds st)
  ∧ (mediaItemLazyNodes = false →
     ∀ x, x ∈ referenced
          ↔ x ∈ referencedMediaItemNodeIds st
            ∨ (x ∈ execall_ids (stringify record) ∧ VStr x ≠ get record "id")).
Proof.
  intros Hg record referenced. subst referenced.
  rewrite createNodeWithSideEffects_referenced. fold record. split; intros Hl.
  - by apply scan_references_lazy.
  - intros x. rewrite scan_references_eager by done.
    by rewrite elem_of_foldl_set_add, elem_of_matchedIds.
Qed.

Lemma scan_runs_when_media_eager_witness :
  let H := Demo.host false None Demo.catalog in
  let t := Demo.task Demo.posts_group Demo.post1 in
  plural (wpgqlNodesGroup t) ≠ "mediaItems"
  ∧ "m1" ∈ referencedMediaItemNodeIds
             (createNodeWithSideEffects 0 t empty_store).1.
Proof.
  intros H t.
  assert (Hg : plural (wpgqlNodesGroup t) ≠ "mediaItems")
    by (vm_compute; discriminate).
  assert (Hex : execall_ids (stringify (derive_path (node t)))
                = ["m2"; "m1"; "p1"]) by (vm_compute; reflexivity).
  assert (Heager : mediaItemLazyNodes = false) by reflexivity.
  split; [exact Hg|].
  apply (proj2 (scan_runs_when_media_eager 0 t empty_store Hg) Heager "m1").
  right. split.
  - rewrite Hex. apply elem_of_cons. right. apply elem_of_cons. by left.
  - vm_compute. discriminate.
Defined.

(** C1, as it was stated, fails: with the lazy setting the record of a
    non-media group is not scanned (the set stays empty although the
    serialized record embeds two foreign ids), and with the eager setting
    it is scanned. *)
Lemma scan_when_lazy_counterexample :
  plural Demo.posts_group ≠ "mediaItems"
  ∧ (let H := Demo.host true None Demo.catalog in
     matchedIds (stringify Demo.post1) Demo.post1 = ["m2"; "m1"]
     ∧ scan_references Demo.posts_group Demo.post1 [] = [])
  ∧ (let H := Demo.host false None Demo.catalog in
     scan_references Demo.posts_group Demo.post1 [] = ["m2"; "m1"]).
Proof. split; [vm_compute; discriminate|]. split; vm_compute; done. Qed.

(** C3: when the scan runs (eager media setting, group other than the media
    group) on a record whose serialization has three matches of the
    pattern, two with distinct foreign ids [a] and [b] and one with the
    record's own id, the set gains exactly [a] and [b]; starting from the
    empty set it holds exactly these two and not the record's own id. *)
Theorem scan_collects_foreign_ids `{Collaborators} u t st a b self :
  plural (wpgqlNodesGroup t) ≠ "mediaItems" →
  mediaItemLazyNodes = false →
  get (derive_path (node t)) "id" = VStr self →
  a ≠ b → a ≠ self → b ≠ self →
  execall_ids (stringify (derive_path (node t))) ≡ₚ [a; b; self] →
  let referenced := referencedMediaItemNodeIds (createNodeWithSideEffects u t st).1 in
  (∀ x, x ∈ referenced ↔ x ∈ referencedMediaItemNodeIds st ∨ x = a ∨ x = b)
  ∧ (referencedMediaItemNodeIds st = [] →
     referenced ≡ₚ [a; b] ∧ self ∉ referenced).
Proof.
  intros Hg Hl Hid Hab Ha Hb Hperm referenced.
  assert (Hin : ∀ x, x ∈ referenced
                     ↔ x ∈ referencedMediaItemNodeIds st ∨ x = a ∨ x = b).
  { intros x. subst referenced.
    rewrite createNodeWithSideEffects_referenced, scan_references_eager by done.
    rewrite elem_of_foldl_set_add, elem_of_matchedIds, Hperm, Hid.
    rewrite !elem_of_cons, elem_of_nil. split.
    - intros [?|[[->|[->|[->|[]]]] Hne]]; auto. by destruct Hne.
    - intros [?|[->| ->]]; [by left|right..]; (split; [tauto|congruence]). }
  split; [done|]. intros Hempty. split.
  - apply NoDup_Permutation.
    + subst referenced. rewrite createNodeWithSideEffects_referenced, Hempty.
      apply NoDup_scan_references, NoDup_nil_2.
    + apply NoDup_cons. split; [|apply NoDup_singleton].
      by intros ->%list_elem_of_singleton.
    + intros x. rewrite Hin, Hempty, elem_of_nil, !elem_of_cons, elem_of_nil.
      tauto.
  - rewrite Hin, Hempty, elem_of_nil. intros [[]|[->| ->]]; done.
Qed.

Lemma scan_collects_foreign_ids_witness :
  let H := Demo.host false None Demo.catalog in
  let t := Demo.task Demo.posts_group Demo.post1 in
  let referenced := referencedMediaItemNodeIds (createNodeWithSideEffects 0 t empty_store).1 in
  execall_ids (stringify (derive_path (node t))) = ["m2"; "m1"; "p1"]
  ∧ referenced ≡ₚ ["m2"; "m1"] ∧ "p1" ∉ referenced.
Proof.
  intros H t referenced.
  assert (Hex : execall_ids (stringify (derive_path (node t)))
                = ["m2"; "m1"; "p1"]) by (vm_compute; reflexivity).
  split; [exact Hex|].
  refine (proj2 (scan_collects_foreign_ids 0 t empty_store "m2" "m1" "p1"
                   _ _ _ _ _ _ _) _).
  - vm_compute; discriminate.
  - reflexivity.
  - vm_compute; reflexivity.
  - discriminate.
  - discriminate.
  - discriminate.
  - rewrite Hex. reflexivity.
  - reflexivity.
Defined.

(** ** The segments of a unit *)

Section UnitProperties.
Context `{Collaborators}.

Lemma push_side_effect_spec st id :
  createdNodeIds (push_side_effect st id) = createdNodeIds st ++ [id]
  ∧ totalSideEffectNodes (push_side_effect st id)
    = totalSideEffectNodes st ++ [id]
  ∧ referencedMediaItemNodeIds (push_side_effect st id)
    = referencedMediaItemNodeIds st
  ∧ log (push_side_effect st id) = log st.
Proof.
  unfold push_side_effect. simpl. rewrite length_app. simpl.
  by replace (0 <? length (createdNodeIds st) + 1)%nat with true
    by (symmetry; apply Nat.ltb_lt; lia).
Qed.

Lemma foldl_push_side_effect l st :
  createdNodeIds (foldl push_side_effect st l) = createdNodeIds st ++ l
  ∧ totalSideEffectNodes (foldl push_side_effect st l)
    = totalSideEffectNodes st ++ l
  ∧ referencedMediaItemNodeIds (foldl push_side_effect st l)
    = referencedMediaItemNodeIds st
  ∧ log (foldl push_side_effect st l) = log st.
Proof.
  revert st. induction l as [|id l IH]; intros st; simpl.
  - by rewrite !app_nil_r.
  - destruct (IH (push_side_effect st id)) as (-> & -> & -> & ->).
    destruct (push_side_effect_spec st id) as (-> & -> & -> & ->).
    by rewrite <-!app_assoc.
Qed.

Lemma push_additional_spec ids st :
  createdNodeIds (push_additional ids st)
  = createdNodeIds st ++ default [] ids
  ∧ totalSideEffectNodes (push_additional ids st)
    = totalSideEffectNodes st ++ default [] ids
  ∧ referencedMediaItemNodeIds (push_additional ids st)
    = referencedMediaItemNodeIds st
  ∧ log (push_additional ids st) = log st.
Proof.
  destruct ids as [l|]; simpl; [|by rewrite !app_nil_r].
  destruct l as [|id l]; [by rewrite !app_nil_r|].
  change (0 <? length (id :: l))%nat with true. cbv iota.
  apply foldl_push_side_effect.
Qed.

Lemma createNodeWithSideEffects_spec u t st :
  createNodeWithSideEffects u t st
  = (emit (start_event u t)
       (set_referenced
          (scan_references (wpgqlNodesGroup t) (derive_path (node t))
             (referencedMediaItemNodeIds st)) st),
     start_cont t).
Proof.
  unfold createNodeWithSideEffects, start_event, start_cont, hook_args.
  by destruct (hook_of _).
Qed.

(** What a resumed segment does to the shared state. *)
Lemma resumeNodeWithSideEffects_spec u c st :
  (resumeNodeWithSideEffects u c st).2 = next_cont c
  ∧ createdNodeIds (resumeNodeWithSideEffects u c st).1
    = createdNodeIds st ++ resume_created c
  ∧ totalSideEffectNodes (resumeNodeWithSideEffects u c st).1
    = totalSideEffectNodes st ++ resume_side_effects c
  ∧ referencedMediaItemNodeIds (resumeNodeWithSideEffects u c st).1
    = referencedMediaItemNodeIds st
  ∧ ∃ reports,
      log (resumeNodeWithSideEffects u c st).1 = log st ++ reports ++ resume_events u c
      ∧ Forall (λ e, unit_of e = None ∧ stage e = 1) reports.
Proof.
  destruct c as [node rn [|r]|node rn]; simpl.
  - rewrite !app_nil_r. split_and!; try done. by exists [].
  - destruct (push_additional_spec (additionalNodeIds_of r) st)
      as (Hc & Hs & Hr & Hl).
    split_and!; try done. rewrite Hl, Hs.
    eexists [_]. rewrite <-app_assoc. split; [done|].
    by repeat constructor.
  - destruct (createNode rn); simpl; rewrite ?app_nil_r;
      (split_and!; try done); by exists [].
Qed.

Lemma resume_events_unit u c :
  Forall (λ e, unit_of e = Some u ∧ stage e = 1) (resume_events u c).
Proof.
  destruct c as [node rn [|r]|node rn]; simpl;
    try destruct (createNode rn); by repeat constructor.
Qed.

Lemma start_event_unit u t :
  unit_of (start_event u t) = Some u ∧ stage (start_event u t) = 1.
Proof. unfold start_event. by destruct (hook_of _). Qed.

Lemma next_cont_weight c c' :
  next_cont c = Some c' → cont_weight c = 2 ∧ cont_weight c' = 1.
Proof.
  destruct c as [node rn [|r]|node rn]; simpl; try done.
  intros [= <-]. done.
Qed.

Lemma cont_weight_bounds c : 1 ≤ cont_weight c ≤ 2.
Proof. unfold cont_weight. destruct (next_cont c); lia. Qed.

Lemma and_then_next {A} (f : cont → list A) c c' :
  next_cont c = Some c' → and_then f c = f c ++ and_then f c'.
Proof.
  intros Hn. unfold and_then. rewrite Hn. simpl.
  destruct c as [node rn [|r]|node rn]; simpl in Hn; try done.
  injection Hn as <-. simpl. by rewrite app_nil_r.
Qed.

Lemma and_then_last {A} (f : cont → list A) c :
  next_cont c = None → and_then f c = f c.
Proof. intros Hn. unfold and_then. rewrite Hn. simpl. apply app_nil_r. Qed.

End UnitProperties.

(** ** The work queue as a step relation *)

Section QueueProperties.
Context `{Collaborators}.

Lemma perform_qstep a q : perform a q = q ∨ qstep q (perform a q).
Proof.
  destruct a as [|i]; simpl.
  - destruct (pending q) as [|[u t] rest] eqn:Hp; [by left|right].
    rewrite createNodeWithSideEffects_spec. simpl.
    pose proof (qstep_start q u t rest Hp) as Hs.
    by rewrite createNodeWithSideEffects_spec in Hs.
  - destruct (inflight q !! i) as [[u c]|] eqn:Hi; [right|by left].
    pose proof (take_drop_middle _ _ _ Hi) as Hsplit.
    pose proof (qstep_resume q u c _ _ (eq_sym Hsplit)) as Hs.
    destruct (resumeNodeWithSideEffects_spec u c (store q)) as (Hn & _).
    destruct (resumeNodeWithSideEffects u c (store q)) as [st oc]. simpl in *. subst oc.
    assert (Hlt : i < length (inflight q)) by by eapply lookup_lt_Some.
    destruct (next_cont c) as [c'|]; simpl in *.
    + by rewrite insert_take_drop.
    + by rewrite delete_take_drop.
Qed.

Lemma step_cases choice q : step choice q = q ∨ qstep q (step choice q).
Proof.
  unfold step. destruct (enabled q !! _); [apply perform_qstep|by left].
Qed.

(** A property kept by every step holds after any run. *)
Lemma run_invariant (P : Queue → Prop) :
  (∀ q q', qstep q q' → P q → P q') →
  ∀ sched fuel k q, P q → P (run sched k fuel q).
Proof.
  intros Hstep sched fuel. induction fuel as [|fuel IH]; intros k q Hq; [done|].
  simpl. apply IH. destruct (step_cases (sched k) q) as [->|Hs]; eauto.
Qed.

(** *** Progress: the queue drains *)

Lemma idle_dec q : Decision (idle q).
Proof. unfold idle. apply _. Defined.

Lemma enabled_idle q : idle q → enabled q = [].
Proof.
  intros [Hp Hi]. unfold enabled, can_start. by rewrite Hp, Hi.
Qed.

Lemma step_idle choice q : idle q → step choice q = q.
Proof. intros Hq. unfold step. by rewrite enabled_idle. Qed.

Lemma enabled_nonempty q : ¬ idle q → 0 < length (enabled q).
Proof.
  intros Hq. unfold enabled, can_start. rewrite length_app, length_map, length_seq.
  destruct (inflight q) as [|x infl] eqn:Hi; simpl; [|lia].
  destruct (pending q) as [|y p] eqn:Hp; simpl; [|lia].
  destruct Hq. by split.
Qed.

Lemma elem_of_enabled a q :
  a ∈ enabled q →
  (a = Start ∧ pending q ≠ [])
  ∨ (∃ i, a = Resume i ∧ i < length (inflight q)).
Proof.
  unfold enabled. rewrite elem_of_app. intros [Ha|Ha].
  - left. unfold can_start in Ha.
    destruct (pending q); simpl in Ha.
    + rewrite andb_false_r in Ha. by apply elem_of_nil in Ha.
    + destruct (_ <? _); simpl in Ha;
        [apply list_elem_of_singleton in Ha|apply elem_of_nil in Ha]; done.
  - right. apply list_elem_of_fmap in Ha as (i & -> & Hi).
    exists i. split; [done|]. apply elem_of_seq in Hi. lia.
Qed.

Lemma step_progress choice q : ¬ idle q → qstep q (step choice q).
Proof.
  intros Hq. unfold step.
  pose proof (enabled_nonempty q Hq) as Hlen.
  destruct (lookup_lt_is_Some_2 (enabled q) (choice mod length (enabled q)))
    as [a Ha]; [apply Nat.mod_upper_bound; lia|].
  rewrite Ha.
  apply list_elem_of_lookup_2, elem_of_enabled in Ha as [[-> Hp]|(i & -> & Hi)].
  - destruct (perform_qstep Start q) as [Heq|Hs]; [|done].
    simpl in Heq. destruct (pending q) as [|[u t] rest] eqn:Hpend; [done|].
    rewrite createNodeWithSideEffects_spec in Heq.
    apply (f_equal pending) in Heq. simpl in Heq. rewrite Hpend in Heq.
    apply (f_equal length) in Heq. simpl in Heq. lia.
  - destruct (perform_qstep (Resume i) q) as [Heq|Hs]; [|done].
    simpl in Heq.
    destruct (lookup_lt_is_Some_2 (inflight q) i Hi) as [[u c] Hx].
    rewrite Hx in Heq.
    destruct (resumeNodeWithSideEffects_spec u c (store q)) as (Hn & _).
    destruct (resumeNodeWithSideEffects u c (store q)) as [st oc]. simpl in *. subst oc.
    apply (f_equal inflight) in Heq. simpl in Heq.
    destruct (next_cont c) as [c'|] eqn:Hc.
    + apply (f_equal (λ l, snd <$> l !! i)) in Heq. simpl in Heq.
      rewrite list_lookup_insert_eq, Hx in Heq by done. simpl in Heq.
      injection Heq as <-.
      destruct (next_cont_weight _ _ Hc) as [H2 H1]. lia.
    + apply (f_equal length) in Heq. rewrite length_delete in Heq by eauto.
      lia.
Qed.

Lemma qstep_weight q q' : qstep q q' → weight q' < weight q.
Proof.
  intros [q0 u t rest Hp|q0 u c l1 l2 Hi]; unfold weight; simpl.
  - rewrite Hp, sum_list_with_app. simpl.
    pose proof (cont_weight_bounds (start_cont t)). lia.
  - rewrite Hi, !sum_list_with_app. simpl.
    destruct (next_cont c) as [c'|] eqn:Hc; simpl.
    + destruct (next_cont_weight _ _ Hc). lia.
    + pose proof (cont_weight_bounds c). lia.
Qed.

Lemma weight_zero_idle q : weight q = 0 → idle q.
Proof.
  unfold weight, idle. intros Hw.
  destruct (pending q); simpl in Hw; [|lia].
  destruct (inflight q) as [|[u c] l]; simpl in Hw; [done|].
  pose proof (cont_weight_bounds c). lia.
Qed.

Lemma run_idle sched fuel k q : weight q ≤ fuel → idle (run sched k fuel q).
Proof.
  revert k q. induction fuel as [|fuel IH]; intros k q Hw; simpl.
  - apply weight_zero_idle. lia.
  - destruct (idle_dec q) as [Hq|Hq].
    + rewrite step_idle by done. apply IH.
      destruct Hq as [Hp Hi]. unfold weight. rewrite Hp, Hi. simpl. lia.
    + apply IH. pose proof (qstep_weight _ _ (step_progress (sched k) q Hq)).
      lia.
Qed.

Lemma length_index_tasks ts : length (index_tasks ts) = length ts.
Proof.
  unfold index_tasks. rewrite length_zip_with, length_seq. lia.
Qed.

(** [onIdle] resolves: after the fuel it is given the queue is idle. *)
Lemma onIdle_idle sched ts st : idle (onIdle sched ts st).
Proof.
  apply run_idle. unfold weight, initial_queue, drain_fuel. simpl.
  rewrite length_index_tasks. lia.
Qed.

(** At most [concurrency] units are in flight. *)
Lemma step_concurrency choice q :
  length (inflight q) ≤ concurrency →
  length (inflight (step choice q)) ≤ concurrency.
Proof.
  intros Hq. unfold step.
  destruct (enabled q !! _) as [a|] eqn:Ha; [|done].
  apply list_elem_of_lookup_2 in Ha. unfold enabled in Ha.
  apply elem_of_app in Ha as [Ha|Ha].
  - unfold can_start in Ha.
    destruct (length (inflight q) <? concurrency)%nat eqn:Hlt; simpl in Ha;
      [|by apply elem_of_nil in Ha].
    destruct (0 <? length (pending q))%nat; simpl in Ha;
      [|by apply elem_of_nil in Ha].
    apply list_elem_of_singleton in Ha as ->. simpl.
    destruct (pending q) as [|[u t] rest]; [done|].
    destruct (createNodeWithSideEffects u t (store q)). simpl.
    apply Nat.ltb_lt in Hlt. rewrite length_app. simpl. lia.
  - apply list_elem_of_fmap in Ha as (i & -> & _). simpl.
    destruct (inflight q !! i) as [[u c]|] eqn:Hi; [|done].
    destruct (resumeNodeWithSideEffects u c (store q)) as [st [c'|]]; simpl.
    + by rewrite length_insert.
    + rewrite length_delete by eauto. lia.
Qed.

Lemma run_concurrency sched fuel k q :
  length (inflight q) ≤ concurrency →
  length (inflight (run sched k fuel q)) ≤ concurrency.
Proof.
  revert k q. induction fuel as [|fuel IH]; intros k q Hq; [done|].
  simpl. by apply IH, step_concurrency.
Qed.

End QueueProperties.

(** ** What every interleaving preserves *)

Lemma bind_untagged {A B} (F : nat * A → list B) (u : nat) (l : list (nat * A)) :
  u ∉ l.*1 → l ≫= (λ x, if decide (x.1 = u) then F x else []) = [].
Proof.
  induction l as [|[u' a] l IH]; [done|].
  rewrite fmap_cons, not_elem_of_cons, bind_cons. simpl.
  intros [Hne Hl]. rewrite IH by done. by rewrite decide_False.
Qed.

Lemma bind_indexed {A B} (F : A → list B) (u k : nat) (l : list A) :
  zip (seq k (length l)) l ≫= (λ x, if decide (x.1 = u) then F x.2 else [])
  = if decide (k ≤ u) then from_option F [] (l !! (u - k)) else [].
Proof.
  revert k. induction l as [|a l IH]; intros k.
  - simpl. by case_decide.
  - change (zip (seq k (length (a :: l))) (a :: l))
      with ((k, a) :: zip (seq (S k) (length l)) l).
    rewrite bind_cons, IH. simpl.
    destruct (decide (k = u)) as [->|Hne].
    + rewrite decide_False, decide_True by lia.
      rewrite Nat.sub_diag. simpl. apply app_nil_r.
    + destruct (decide (k ≤ u)).
      * rewrite decide_True by lia.
        by replace (u - k) with (S (u - S k)) by lia.
      * by rewrite decide_False by lia.
Qed.

Lemma bind_snd {A B C} (f : B → list C) (l : list (A * B)) :
  l ≫= (λ x, f x.2) = l.*2 ≫= f.
Proof.
  induction l as [|x l IH]; [done|].
  by rewrite fmap_cons, !bind_cons, IH.
Qed.

Lemma foldl_snd {A B C} (f : C → B → C) (c : C) (l : list (A * B)) :
  foldl (λ r x, f r x.2) c l = foldl f c l.*2.
Proof. by rewrite foldl_fmap. Qed.

Lemma events_of_app u l1 l2 :
  events_of u (l1 ++ l2) = events_of u l1 ++ events_of u l2.
Proof. apply filter_app. Qed.

Lemma events_of_unit u u' l :
  Forall (λ e, unit_of e = Some u') l →
  events_of u l = if decide (u' = u) then l else [].
Proof.
  induction 1 as [|e l He Hl IH]; [by case_decide|].
  unfold events_of in *. rewrite filter_cons, IH, He.
  destruct (decide (u' = u)) as [->|Hne].
  - by rewrite decide_True.
  - rewrite decide_False; [done|congruence].
Qed.

Lemma events_of_none u l :
  Forall (λ e, unit_of e = None) l → events_of u l = [].
Proof.
  induction 1 as [|e l He Hl IH]; [done|].
  unfold events_of in *. rewrite filter_cons, IH, He. by case_decide.
Qed.

Lemma elem_of_events_of (u : nat) (e : event) (l : list event) :
  e ∈ events_of u l ↔ unit_of e = Some u ∧ e ∈ l.
Proof. unfold events_of. by rewrite list_elem_of_filter. Qed.

Section Invariants.
Context `{Collaborators}.

Lemma potential_step (field : Store → list value) (f : cont → list value) :
  (∀ u t st, field (createNodeWithSideEffects u t st).1 = field st) →
  (∀ u c st, field (resumeNodeWithSideEffects u c st).1 = field st ++ f c) →
  ∀ q q', qstep q q' → potential field f q' ≡ₚ potential field f q.
Proof.
  intros Hstart Hresume q q' [q0 u t rest Hp|q0 u c l1 l2 Hi];
    unfold potential; cbn [pending inflight store].
  - rewrite Hstart, Hp, bind_app, bind_singleton, bind_cons.
    cbn [fst snd]. by rewrite <-!app_assoc.
  - rewrite Hresume, Hi, !bind_app, bind_cons. cbn [fst snd].
    destruct (next_cont c) as [c'|] eqn:Hc.
    + change (option_list (pair u <$> Some c')) with [(u, c')].
      rewrite bind_singleton. cbn [fst snd].
      rewrite (and_then_next f c c' Hc). solve_Permutation.
    + change (option_list (pair u <$> None)) with (@nil (nat * cont)).
      change ((@nil (nat * cont)) ≫= λ uc, and_then f uc.2)
        with (@nil value).
      rewrite (and_then_last f c Hc). solve_Permutation.
Qed.

Lemma scan_pending_step q q' :
  qstep q q' →
  scan_pending (pending q') (referencedMediaItemNodeIds (store q'))
  = scan_pending (pending q) (referencedMediaItemNodeIds (store q)).
Proof.
  intros [q0 u t rest Hp|q0 u c l1 l2 Hi]; simpl.
  - by rewrite Hp, createNodeWithSideEffects_referenced.
  - by destruct (resumeNodeWithSideEffects_spec u c (store q0)) as (_ & _ & _ & -> & _).
Qed.

Lemma stage_step q q' :
  qstep q q' →
  Forall (λ e, stage e = 1) (log (store q)) →
  Forall (λ e, stage e = 1) (log (store q')).
Proof.
  intros [q0 u t rest Hp|q0 u c l1 l2 Hi] Hlog; simpl.
  - rewrite createNodeWithSideEffects_spec. simpl. apply Forall_app. split; [done|].
    apply Forall_singleton, start_event_unit.
  - destruct (resumeNodeWithSideEffects_spec u c (store q0))
      as (_ & _ & _ & _ & reports & -> & Hr).
    rewrite !Forall_app. split_and!; [done| |].
    + eapply Forall_impl; [exact Hr|]. by intros e [].
    + eapply Forall_impl; [apply resume_events_unit|]. by intros e [].
Qed.

Lemma NoDup_referenced_step q q' :
  qstep q q' →
  NoDup (referencedMediaItemNodeIds (store q)) →
  NoDup (referencedMediaItemNodeIds (store q')).
Proof.
  intros [q0 u t rest Hp|q0 u c l1 l2 Hi] Hnd; simpl.
  - rewrite createNodeWithSideEffects_referenced. by apply NoDup_scan_references.
  - by destruct (resumeNodeWithSideEffects_spec u c (store q0)) as (_ & _ & _ & -> & _).
Qed.

Lemma tags_step q q' : qstep q q' → NoDup (tags q) → NoDup (tags q').
Proof.
  intros [q0 u t rest Hp|q0 u c l1 l2 Hi]; unfold tags; simpl.
  - rewrite Hp, fmap_app, fmap_cons. simpl. rewrite <-app_assoc. done.
  - rewrite Hi, !fmap_app, fmap_cons. simpl.
    destruct (next_cont c) as [c'|]; simpl; [done|].
    rewrite <-!app_assoc. rewrite !NoDup_app. simpl.
    intros (H1 & H12 & H2 & H23 & H3). split_and!; try done.
    * intros x Hx Hx'. apply (H12 x Hx). rewrite elem_of_cons, elem_of_app.
      apply elem_of_app in Hx' as [?|?]; auto.
    * apply NoDup_cons in H2 as [_ H2]. done.
    * intros x Hx. apply H23. by right.
Qed.

(** The events of a unit appear in the log in the order of its segments:
    what is logged and what remains make up the same sequence. *)
Lemma events_step u q q' :
  qstep q q' → NoDup (tags q) →
  events_of u (log (store q')) ++ remaining_events u q'
  = events_of u (log (store q)) ++ remaining_events u q.
Proof.
  intros [q0 u0 t rest Hp|q0 u0 c l1 l2 Hi]; unfold tags, remaining_events;
    cbn [pending inflight store].
  - rewrite createNodeWithSideEffects_spec, Hp. cbn [fst log emit].
    rewrite fmap_cons, events_of_app, bind_app, bind_singleton, bind_cons.
    cbn [fst snd]. intros Hnd.
    rewrite (events_of_unit u u0 [_])
      by (apply Forall_singleton, start_event_unit).
    destruct (decide (u0 = u)) as [->|Hne].
    + apply NoDup_app in Hnd as (_ & Hdisj & [Hrest _]%NoDup_cons).
      rewrite (bind_untagged (λ uc, cont_events u uc.2) u (inflight q0)).
      2:{ intros Hin. apply (Hdisj u Hin). by left. }
      rewrite (bind_untagged (λ ut, unit_events u ut.2) u rest) by done.
      unfold unit_events. cbn [app]. by rewrite !app_nil_r, <-app_assoc.
    + by rewrite !app_nil_r.
  - destruct (resumeNodeWithSideEffects_spec u0 c (store q0))
      as (_ & _ & _ & _ & reports & -> & Hr).
    rewrite Hi, !fmap_app, fmap_cons, !events_of_app, !bind_app, bind_cons.
    cbn [fst snd]. intros Hnd.
    rewrite (events_of_none u reports)
      by (eapply Forall_impl; [exact Hr|]; by intros e []).
    rewrite (events_of_unit u u0 (resume_events u0 c))
      by (eapply Forall_impl; [apply resume_events_unit|]; by intros e []).
    destruct (decide (u0 = u)) as [->|Hne].
    + rewrite <-app_assoc in Hnd.
      apply NoDup_app in Hnd as (_ & H1 & [H2 _]%NoDup_cons).
      rewrite (bind_untagged (λ uc, cont_events u uc.2) u l1).
      2:{ intros Hin. apply (H1 u Hin). by left. }
      rewrite (bind_untagged (λ uc, cont_events u uc.2) u l2).
      2:{ intros Hin. apply H2. apply elem_of_app. by left. }
      cbn [app]. rewrite !app_nil_r.
      destruct (next_cont c) as [c'|] eqn:Hc.
      * change (option_list (pair u <$> Some c')) with [(u, c')].
        rewrite bind_singleton. cbn [fst snd].
        rewrite decide_True by done. unfold cont_events.
        rewrite (and_then_next _ c c' Hc). by rewrite <-!app_assoc.
      * change (option_list (pair u <$> None)) with (@nil (nat * cont)).
        unfold cont_events. rewrite (and_then_last _ c Hc).
        by rewrite <-!app_assoc.
    + assert (option_list (pair u0 <$> next_cont c)
              ≫= (λ uc, if decide (uc.1 = u)
                        then cont_events u uc.2 else []) = []) as ->.
      { destruct (next_cont c) as [c'|]; [|done].
        change (option_list (pair u0 <$> Some c')) with [(u0, c')].
        rewrite bind_singleton. cbn [fst snd]. by rewrite decide_False. }
      by rewrite !app_nil_r.
Qed.

(** *** The state when the queue is idle *)

Lemma potential_idle field f q : idle q → potential field f q = field (store q).
Proof.
  intros [Hp Hi]. unfold potential. rewrite Hp, Hi. simpl. apply app_nil_r.
Qed.

Lemma potential_initial (field : Store → list value)
    (f : cont → list value) (ts : list Task) (st : Store) :
  potential field f (initial_queue ts st)
  = field st ++ (ts ≫= λ t, and_then f (start_cont t)).
Proof.
  unfold potential, initial_queue, index_tasks. simpl.
  rewrite (bind_snd (λ t, and_then f (start_cont t))), snd_zip; [done|].
  by rewrite length_seq.
Qed.

Lemma onIdle_potential (field : Store → list value)
    (f : cont → list value) sched (ts : list Task) (st : Store) :
  (∀ u t st, field (createNodeWithSideEffects u t st).1 = field st) →
  (∀ u c st, field (resumeNodeWithSideEffects u c st).1 = field st ++ f c) →
  field (store (onIdle sched ts st))
  ≡ₚ field st ++ (ts ≫= λ t, and_then f (start_cont t)).
Proof.
  intros Hstart Hresume.
  rewrite <-(potential_idle field f) by apply onIdle_idle.
  rewrite <-potential_initial. unfold onIdle.
  apply (run_invariant (λ q, potential field f q
                              ≡ₚ potential field f (initial_queue ts st)));
    [|done].
  intros q q' Hs Hq. by rewrite (potential_step field f Hstart Hresume q q' Hs).
Qed.

(** The ledger after the queue drained: what every unit pushes, in some
    order. *)
Lemma onIdle_created sched (ts : list Task) st :
  createdNodeIds (store (onIdle sched ts st))
  ≡ₚ createdNodeIds st ++ (ts ≫= unit_created).
Proof.
  apply (onIdle_potential createdNodeIds resume_created).
  - intros u t st'. by rewrite createNodeWithSideEffects_spec.
  - intros u c st'. by destruct (resumeNodeWithSideEffects_spec u c st') as (_ & -> & _).
Qed.

Lemma onIdle_side_effects sched (ts : list Task) st :
  totalSideEffectNodes (store (onIdle sched ts st))
  ≡ₚ totalSideEffectNodes st ++ (ts ≫= unit_side_effects).
Proof.
  apply (onIdle_potential totalSideEffectNodes resume_side_effects).
  - intros u t st'. by rewrite createNodeWithSideEffects_spec.
  - intros u c st'. by destruct (resumeNodeWithSideEffects_spec u c st') as (_ & _ & -> & _).
Qed.

(** The units start in queue order, so the set of referenced ids is the
    one a sequential scan of the records builds. *)
Lemma onIdle_referenced sched ts st :
  referencedMediaItemNodeIds (store (onIdle sched ts st))
  = foldl (λ r t, scan_references (wpgqlNodesGroup t)
                    (derive_path (node t)) r)
          (referencedMediaItemNodeIds st) ts.
Proof.
  transitivity (scan_pending (pending (onIdle sched ts st))
                  (referencedMediaItemNodeIds (store (onIdle sched ts st)))).
  { destruct (onIdle_idle sched ts st) as [-> _]. done. }
  transitivity (scan_pending (index_tasks ts) (referencedMediaItemNodeIds st)).
  - unfold onIdle.
    apply (run_invariant
             (λ q, scan_pending (pending q)
                     (referencedMediaItemNodeIds (store q))
                   = scan_pending (index_tasks ts)
                       (referencedMediaItemNodeIds st))); [|done].
    intros q q' Hs Hq. by rewrite (scan_pending_step q q' Hs).
  - unfold scan_pending, index_tasks.
    rewrite (foldl_snd (λ r t, scan_references (wpgqlNodesGroup t)
                                 (derive_path (node t)) r)).
    by rewrite snd_zip by (by rewrite length_seq).
Qed.

Lemma onIdle_NoDup_referenced sched ts st :
  NoDup (referencedMediaItemNodeIds st) →
  NoDup (referencedMediaItemNodeIds (store (onIdle sched ts st))).
Proof.
  intros Hnd. unfold onIdle.
  by apply (run_invariant
              (λ q, NoDup (referencedMediaItemNodeIds (store q))));
    [apply NoDup_referenced_step|].
Qed.

Lemma onIdle_stage sched ts st :
  Forall (λ e, stage e = 1) (log st) →
  Forall (λ e, stage e = 1) (log (store (onIdle sched ts st))).
Proof.
  intros Hlog. unfold onIdle.
  by apply (run_invariant (λ q, Forall (λ e, stage e = 1) (log (store q))));
    [apply stage_step|].
Qed.

(** In every interleaving, the events of unit [u] are logged in the order
    of its segments. *)
Lemma onIdle_events sched ts st u :
  events_of u (log (store (onIdle sched ts st)))
  = events_of u (log st) ++ from_option (unit_events u) [] (ts !! u).
Proof.
  pose (q0 := initial_queue ts st).
  assert (Hinv : NoDup (tags (onIdle sched ts st))
                 ∧ events_of u (log (store (onIdle sched ts st)))
                   ++ remaining_events u (onIdle sched ts st)
                   = events_of u (log (store q0)) ++ remaining_events u q0).
  { unfold onIdle.
    apply (run_invariant
             (λ q, NoDup (tags q)
                   ∧ events_of u (log (store q)) ++ remaining_events u q
                     = events_of u (log (store q0)) ++ remaining_events u q0)).
    - intros q q' Hs [Hnd Hev]. split; [by eapply tags_step|].
      by rewrite (events_step u q q' Hs Hnd).
    - split; [|done]. unfold tags, initial_queue, index_tasks. simpl.
      rewrite fst_zip by (by rewrite length_seq). apply NoDup_seq. }
  destruct Hinv as [_ Hev].
  destruct (onIdle_idle sched ts st) as [Hp Hi].
  unfold remaining_events in Hev at 1. rewrite Hp, Hi in Hev. simpl in Hev.
  rewrite app_nil_r in Hev. rewrite Hev.
  unfold q0, remaining_events, initial_queue, index_tasks. simpl.
  rewrite (bind_indexed (unit_events u) u 0 ts).
  rewrite decide_True by lia. by rewrite Nat.sub_0_r.
Qed.

End Invariants.

(** ** The committed node *)

Section NodeShape.
Context `{Collaborators}.

Lemma derive_path_lookup (record : gmap string value) k :
  k ≠ "path" → derive_path record !! k = record !! k.
Proof.
  intros Hk. unfold derive_path. destruct (truthy _); [|done].
  by rewrite lookup_insert_ne.
Qed.

Lemma derive_path_get (record : gmap string value) k :
  k ≠ "path" → get (derive_path record) k = get record k.
Proof. intros Hk. unfold get. by rewrite derive_path_lookup. Qed.

Lemma build_remoteNode_parent (record : gmap string value) :
  build_remoteNode record !! "parent" = Some VNull.
Proof.
  unfold build_remoteNode.
  rewrite lookup_insert_ne by done. by rewrite lookup_insert_eq.
Qed.

Lemma build_remoteNode_internal (record : gmap string value) :
  build_remoteNode record !! "internal"
  = Some (VObj (<["type" := buildTypeName (get record "type")]>
               (<["contentDigest" := createContentDigest record]> ∅))).
Proof. unfold build_remoteNode. by rewrite lookup_insert_eq. Qed.

Lemma build_remoteNode_get (record : gmap string value) k :
  k ≠ "parent" → k ≠ "internal" →
  get (build_remoteNode record) k = get record k.
Proof.
  intros Hp Hi. unfold build_remoteNode, get.
  rewrite !lookup_insert_ne by done.
  destruct (decide (k = "id")) as [->|Hid].
  - by rewrite lookup_insert_eq.
  - by rewrite lookup_insert_ne.
Qed.

Lemma build_remoteNode_is_Some (record : gmap string value) k :
  is_Some (record !! k) → is_Some (build_remoteNode record !! k).
Proof.
  intros Hk. unfold build_remoteNode.
  rewrite !lookup_insert_is_Some'. auto.
Qed.

Lemma derive_path_is_Some (record : gmap string value) k :
  is_Some (record !! k) → is_Some (derive_path record !! k).
Proof.
  intros Hk. unfold derive_path. destruct (truthy _); [|done].
  rewrite lookup_insert_is_Some'. auto.
Qed.

(** *** The events of one unit *)

Lemma unit_events_create u t rn :
  EvCreateNode u rn ∈ unit_events u t
  ↔ hook_rejects t = false ∧ rn = build_remoteNode (derive_path (node t)).
Proof.
  unfold unit_events, cont_events, and_then, start_event, hook_rejects,
    start_cont.
  destruct (hook_of _) as [hook|]; [destruct (hook _) as [|r]|];
    simpl; try destruct (createNode _); simpl;
    rewrite ?elem_of_cons, ?elem_of_nil; intuition congruence.
Qed.

Lemma unit_events_rejected u t :
  EvUnitRejected u ∈ unit_events u t
  ↔ hook_rejects t = true
    ∨ createNode (build_remoteNode (derive_path (node t))) = false.
Proof.
  unfold unit_events, cont_events, and_then, start_event, hook_rejects,
    start_cont.
  destruct (hook_of _) as [hook|]; [destruct (hook _) as [|r]|];
    simpl; try destruct (createNode _) eqn:Hc; simpl;
    rewrite ?elem_of_cons, ?elem_of_nil; intuition congruence.
Qed.

(** In the life of a unit the push of its own id comes after the call of
    [actions.createNode], which resolved. *)
Lemma unit_events_created u t id l1 l2 :
  unit_events u t = l1 ++ EvCreated u id :: l2 →
  id = get (node t) "id"
  ∧ createNode (build_remoteNode (derive_path (node t))) = true
  ∧ EvCreateNode u (build_remoteNode (derive_path (node t))) ∈ l1
  ∧ l2 = [].
Proof.
  unfold unit_events, cont_events, and_then, start_event, start_cont.
  rewrite <-(derive_path_get (node t) "id") by done.
  destruct (hook_of _) as [hook|]; [destruct (hook _) as [|r]|]; simpl;
    try destruct (createNode _) eqn:Hc; simpl; intros Heq;
    repeat (destruct l1 as [|? l1]; simplify_eq/=);
    split_and!; rewrite ?elem_of_cons; auto.
Qed.

Lemma unit_events_created_in u t :
  hook_rejects t = false →
  createNode (build_remoteNode (derive_path (node t))) = true →
  EvCreated u (get (node t) "id") ∈ unit_events u t.
Proof.
  unfold unit_events, cont_events, and_then, start_event, hook_rejects,
    start_cont.
  rewrite <-(derive_path_get (node t) "id") by done.
  destruct (hook_of _) as [hook|]; [destruct (hook _) as [|r]|]; simpl;
    try done; intros _ ->; simpl; rewrite !elem_of_cons; auto.
Qed.

(** *** The log of [createGatsbyNodesFromWPGQLContentNodes] *)

Lemma materialized_events sched groups u :
  events_of u (log (store (onIdle sched (tasks_of groups) empty_store)))
  = from_option (unit_events u) [] (tasks_of groups !! u).
Proof. by rewrite onIdle_events. Qed.

Lemma materialized_stage sched groups :
  Forall (λ e, stage e = 1)
         (log (store (onIdle sched (tasks_of groups) empty_store))).
Proof. apply onIdle_stage. by repeat constructor. Qed.

Lemma createGatsbyNodes_log sched groups wpUrl :
  generalSettingsUrl = Ok wpUrl →
  newRegExp (anchorTagRegex_source wpUrl) "gim" = true →
  ∃ tail,
    (createGatsbyNodesFromWPGQLContentNodes sched groups).1
    = log (store (onIdle sched (tasks_of groups) empty_store)) ++ tail
    ∧ Forall (λ e, stage e = 2) tail.
Proof.
  intros Hurl Hre. unfold createGatsbyNodesFromWPGQLContentNodes.
  rewrite Hurl, Hre.
  destruct (negb mediaItemLazyNodes && _).
  - eexists [_]. destruct (fetchReferencedMediaItemsAndCreateNodes _); simpl;
      (split; [done|by repeat constructor]).
  - exists []. simpl. by rewrite app_nil_r.
Qed.

(** The function either stops before anything is queued, or runs the queue
    and goes on to the expansion. *)
Lemma createGatsbyNodes_cases sched groups :
  createGatsbyNodesFromWPGQLContentNodes sched groups
  = ([EvGeneralSettings], Err)
  ∨ ∃ tail,
      (createGatsbyNodesFromWPGQLContentNodes sched groups).1
      = log (store (onIdle sched (tasks_of groups) empty_store)) ++ tail
      ∧ Forall (λ e, stage e = 2) tail.
Proof.
  destruct generalSettingsUrl as [wpUrl|] eqn:Hurl.
  - destruct (newRegExp (anchorTagRegex_source wpUrl) "gim") eqn:Hre.
    + right. by eapply createGatsbyNodes_log.
    + left. unfold createGatsbyNodesFromWPGQLContentNodes.
      by rewrite Hurl, Hre.
  - left. unfold createGatsbyNodesFromWPGQLContentNodes. by rewrite Hurl.
Qed.

Lemma createGatsbyNodes_unit_event sched groups wpUrl e u :
  generalSettingsUrl = Ok wpUrl →
  newRegExp (anchorTagRegex_source wpUrl) "gim" = true →
  unit_of e = Some u →
  e ∈ (createGatsbyNodesFromWPGQLContentNodes sched groups).1
  ↔ e ∈ from_option (unit_events u) [] (tasks_of groups !! u).
Proof.
  intros Hurl Hre He.
  destruct (createGatsbyNodes_log sched groups wpUrl Hurl Hre)
    as (tail & -> & Htail).
  rewrite <-(materialized_events sched groups u), elem_of_events_of,
    elem_of_app.
  split; [|tauto]. intros [?|Hin]; [done|].
  rewrite Forall_forall in Htail. apply Htail in Hin. by destruct e.
Qed.

(** Whatever a unit does in a run of the function, it does in the run of
    the queue. *)
Lemma createGatsbyNodes_unit_event_queue sched groups e u :
  unit_of e = Some u →
  e ∈ (createGatsbyNodesFromWPGQLContentNodes sched groups).1 →
  e ∈ log (store (onIdle sched (tasks_of groups) empty_store)).
Proof.
  intros He.
  destruct (createGatsbyNodes_cases sched groups)
    as [->|(tail & -> & Htail)]; simpl.
  - intros ->%list_elem_of_singleton. done.
  - rewrite elem_of_app. intros [?|Hin]; [done|].
    rewrite Forall_forall in Htail. apply Htail in Hin. by destruct e.
Qed.

Lemma materialized_unit_event sched groups e u :
  unit_of e = Some u →
  e ∈ log (store (onIdle sched (tasks_of groups) empty_store))
  ↔ e ∈ from_option (unit_events u) [] (tasks_of groups !! u).
Proof.
  intros He.
  rewrite <-(materialized_events sched groups u), elem_of_events_of. tauto.
Qed.

End NodeShape.

(** C4: in the run of the queue that the function starts once the general
    settings are read and the expression of lines 132-136 is built, the
    node committed for a record (whose hook, if it has one, does not
    reject) has every field of the record, the values of the record for all
    of them but [parent], [internal] and the derived [path], a [parent]
    that is null, and an [internal] object whose [type] is [buildTypeName]
    of the record's type and whose [contentDigest] is computed over the
    record itself, which is the record as fetched with the [path] derived
    from a truthy [link], not over the committed node.  No run of the
    function commits another node for the record, and a run that gets to
    the queue commits this one. *)
Theorem committed_node_shape `{Collaborators} sched groups u t :
  tasks_of groups !! u = Some t →
  hook_rejects t = false →
  let record := derive_path (node t) in
  let l := log (store (onIdle sched (tasks_of groups) empty_store)) in
  let r := createGatsbyNodesFromWPGQLContentNodes sched groups in
  ∃ rn internal,
    EvCreateNode u rn ∈ l
    ∧ (∀ rn', EvCreateNode u rn' ∈ l → rn' = rn)
    ∧ (∀ rn', EvCreateNode u rn' ∈ r.1 → rn' = rn)
    ∧ (∀ wpUrl, generalSettingsUrl = Ok wpUrl →
                newRegExp (anchorTagRegex_source wpUrl) "gim" = true →
                EvCreateNode u rn ∈ r.1)
    ∧ (∀ k, is_Some (node t !! k) → is_Some (rn !! k))
    ∧ (∀ k, k ≠ "parent" → k ≠ "internal" → k ≠ "path" →
            get rn k = get (node t) k)
    ∧ get rn "path" = get record "path"
    ∧ rn !! "parent" = Some VNull
    ∧ rn !! "internal" = Some (VObj internal)
    ∧ internal !! "type" = Some (buildTypeName (get (node t) "type"))
    ∧ internal !! "contentDigest" = Some (createContentDigest record)
    ∧ (truthy (get (node t) "link") = false → record = node t)
    ∧ (truthy (get (node t) "link") = true →
       record = <["path" := urlToPath (get (node t) "link")]> (node t)).
Proof.
  intros Ht Hhook record l r.
  exists (build_remoteNode record). eexists.
  assert (Hin : ∀ rn, EvCreateNode u rn ∈ l ↔ rn = build_remoteNode record).
  { intros rn. subst l.
    rewrite (materialized_unit_event sched groups _ u) by done.
    rewrite Ht. simpl. rewrite unit_events_create. tauto. }
  split_and!.
  - by apply Hin.
  - intros rn'. apply Hin.
  - intros rn' Hrn'. apply Hin.
    by apply (createGatsbyNodes_unit_event_queue sched groups _ u).
  - intros wpUrl Hurl Hre. subst r.
    rewrite (createGatsbyNodes_unit_event sched groups wpUrl _ u) by done.
    rewrite Ht. simpl. rewrite unit_events_create. tauto.
  - intros k Hk. by apply build_remoteNode_is_Some, derive_path_is_Some.
  - intros k Hp Hi Hpath. rewrite build_remoteNode_get by done.
    by apply derive_path_get.
  - by apply build_remoteNode_get.
  - apply build_remoteNode_parent.
  - apply build_remoteNode_internal.
  - rewrite lookup_insert_eq. subst record. by rewrite derive_path_get.
  - rewrite lookup_insert_ne by done. by rewrite lookup_insert_eq.
  - intros Hl. subst record. unfold derive_path. by rewrite Hl.
  - intros Hl. subst record. unfold derive_path. by rewrite Hl.
Qed.

Lemma committed_node_shape_witness :
  let H := Demo.host false None Demo.catalog in
  let groups := [Demo.posts_group] in
  let l := log (store (onIdle Demo.lifo (tasks_of groups) empty_store)) in
  let r := createGatsbyNodesFromWPGQLContentNodes Demo.lifo groups in
  ∃ rn internal,
    EvCreateNode 1 rn ∈ l
    ∧ (∀ rn', EvCreateNode 1 rn' ∈ l → rn' = rn)
    ∧ (∀ rn', EvCreateNode 1 rn' ∈ r.1 → rn' = rn)
    ∧ (∀ wpUrl, generalSettingsUrl = Ok wpUrl →
                newRegExp (anchorTagRegex_source wpUrl) "gim" = true →
                EvCreateNode 1 rn ∈ r.1)
    ∧ (∀ k, is_Some (Demo.post2 !! k) → is_Some (rn !! k))
    ∧ (∀ k, k ≠ "parent" → k ≠ "internal" → k ≠ "path" →
            get rn k = get Demo.post2 k)
    ∧ get rn "path" = get (derive_path Demo.post2) "path"
    ∧ rn !! "parent" = Some VNull
    ∧ rn !! "internal" = Some (VObj internal)
    ∧ internal !! "type" = Some (buildTypeName (get Demo.post2 "type"))
    ∧ internal !! "contentDigest"
      = Some (createContentDigest (derive_path Demo.post2))
    ∧ (truthy (get Demo.post2 "link") = false
       → derive_path Demo.post2 = Demo.post2)
    ∧ (truthy (get Demo.post2 "link") = true →
       derive_path Demo.post2
       = <["path" := urlToPath (get Demo.post2 "link")]> Demo.post2).
Proof.
  intros H groups l r.
  apply (committed_node_shape Demo.lifo groups 1
           (Demo.task Demo.posts_group Demo.post2)).
  - reflexivity.
  - vm_compute. reflexivity.
Defined.

(** ** The ledger and the hook *)

Lemma bind_delete {A B} (f : A → list B) (l : list A) (u : nat) (t : A) :
  l !! u = Some t → l ≫= f ≡ₚ f t ++ (delete u l ≫= f).
Proof.
  intros Hu. rewrite (delete_Permutation l u t Hu) at 1. by rewrite bind_cons.
Qed.

Section Ledger.
Context `{Collaborators}.

(** What a unit with a hook that resolves pushes over its life. *)
Lemma unit_created_hook t hook r :
  hook_of (derive_path (node t)) = Some hook →
  hook (hook_args (derive_path (node t))
          (build_remoteNode (derive_path (node t)))) = HookResolved r →
  unit_created t
  = default [] (additionalNodeIds_of r)
    ++ (if createNode (build_remoteNode (derive_path (node t)))
        then [get (node t) "id"] else [])
  ∧ unit_side_effects t = default [] (additionalNodeIds_of r)
  ∧ hook_rejects t = false.
Proof.
  intros Hhook Hr.
  unfold unit_created, unit_side_effects, cont_created, cont_side_effects,
    and_then, hook_rejects, start_cont.
  rewrite Hhook, Hr. simpl.
  rewrite (derive_path_get (node t) "id") by done.
  by rewrite !app_nil_r.
Qed.

(** In every interleaving the own id of a record is pushed after the
    commit of its node was called. *)
Lemma created_after_createNode sched groups u t l1 l2 id :
  tasks_of groups !! u = Some t →
  log (store (onIdle sched (tasks_of groups) empty_store))
  = l1 ++ EvCreated u id :: l2 →
  id = get (node t) "id"
  ∧ createNode (build_remoteNode (derive_path (node t))) = true
  ∧ EvCreateNode u (build_remoteNode (derive_path (node t))) ∈ l1.
Proof.
  intros Ht Hlog.
  pose proof (materialized_events sched groups u) as Hev.
  rewrite Ht, Hlog, events_of_app in Hev. simpl in Hev.
  unfold events_of in Hev at 2. rewrite filter_cons_True in Hev by done.
  symmetry in Hev. apply unit_events_created in Hev as (-> & Hc & Hin & _).
  split_and!; [done..|]. by apply elem_of_events_of in Hin as [_ Hin].
Qed.

Lemma unit_event_logged sched groups u t e :
  tasks_of groups !! u = Some t → unit_of e = Some u →
  e ∈ log (store (onIdle sched (tasks_of groups) empty_store))
  ↔ e ∈ unit_events u t.
Proof.
  intros Ht He.
  pose proof (materialized_events sched groups u) as Hev.
  rewrite Ht in Hev. simpl in Hev. rewrite <-Hev, elem_of_events_of. tauto.
Qed.

(** When the hook of every record resolves to the same two ids, they are
    in the ledger once per record. *)
Lemma ledger_of_uniform_hook sched groups a b :
  Forall (λ t, ∃ hook,
            hook_of (derive_path (node t)) = Some hook
            ∧ hook (hook_args (derive_path (node t))
                      (build_remoteNode (derive_path (node t))))
              = HookResolved (HObject (Some [a; b]))
            ∧ createNode (build_remoteNode (derive_path (node t))) = true)
         (tasks_of groups) →
  createdNodeIds (store (onIdle sched (tasks_of groups) empty_store))
  ≡ₚ tasks_of groups ≫= λ t, [a; b; get (node t) "id"].
Proof.
  intros Hall. rewrite onIdle_created. simpl.
  induction Hall as [|t ts (hook & Hhook & Hr & Hc) _ IH]; [done|].
  rewrite !bind_cons, IH.
  destruct (unit_created_hook t hook _ Hhook Hr) as (-> & _).
  by rewrite Hc.
Qed.

Lemma foldl_scan_lazy (ts : list Task) referenced :
  mediaItemLazyNodes = true →
  foldl (λ r t, scan_references (wpgqlNodesGroup t)
                  (derive_path (node t)) r) referenced ts
  = referenced.
Proof.
  intros Hl. revert referenced.
  induction ts as [|t ts IH]; intros referenced; simpl; [done|].
  by rewrite scan_references_lazy.
Qed.

End Ledger.

(** C6: a record whose hook resolves to two additional ids [a] and [b]
    (and whose commit resolves) contributes [a], [b] and its own id to the
    ledger, once, whatever the other units contribute (a multiset equality:
    nothing is deduplicated); [a] and [b] also go to the side-effect list;
    and the own id is pushed only after [actions.createNode] was called for
    the record and resolved. *)
Theorem hook_ids_accumulate `{Collaborators} sched groups u t hook a b :
  tasks_of groups !! u = Some t →
  hook_of (derive_path (node t)) = Some hook →
  hook (hook_args (derive_path (node t))
          (build_remoteNode (derive_path (node t))))
  = HookResolved (HObject (Some [a; b])) →
  createNode (build_remoteNode (derive_path (node t))) = true →
  let st := store (onIdle sched (tasks_of groups) empty_store) in
  createdNodeIds st
  ≡ₚ [a; b; get (node t) "id"] ++ (delete u (tasks_of groups) ≫= unit_created)
  ∧ totalSideEffectNodes st
    ≡ₚ [a; b] ++ (delete u (tasks_of groups) ≫= unit_side_effects)
  ∧ EvCreated u (get (node t) "id") ∈ log st
  ∧ ∀ l1 l2 id,
      log st = l1 ++ EvCreated u id :: l2 →
      id = get (node t) "id"
      ∧ EvCreateNode u (build_remoteNode (derive_path (node t))) ∈ l1.
Proof.
  intros Ht Hhook Hr Hc st.
  destruct (unit_created_hook t hook _ Hhook Hr) as (Hcreated & Hside & Hrej).
  rewrite Hc in Hcreated. simpl in Hcreated, Hside. split_and!.
  - subst st. rewrite onIdle_created. simpl.
    by rewrite (bind_delete unit_created _ u t Ht), Hcreated.
  - subst st. rewrite onIdle_side_effects. simpl.
    by rewrite (bind_delete unit_side_effects _ u t Ht), Hside.
  - subst st. rewrite (unit_event_logged sched groups u t) by done.
    by apply unit_events_created_in.
  - intros l1 l2 id Hlog.
    by destruct (created_after_createNode sched groups u t l1 l2 id Ht Hlog)
      as (? & _ & ?).
Qed.

Lemma hook_ids_accumulate_witness :
  let H := Demo.host false None Demo.catalog in
  let groups := [Demo.posts_group] in
  let st := store (onIdle Demo.lifo (tasks_of groups) empty_store) in
  createdNodeIds st
  ≡ₚ [VStr "a"; VStr "b"; VStr "p1"]
     ++ (delete 0 (tasks_of groups) ≫= unit_created)
  ∧ (delete 0 (tasks_of groups) ≫= unit_created)
    = [VStr "a"; VStr "b"; VStr "p2"].
Proof.
  intros H groups st. split.
  - refine (proj1 (hook_ids_accumulate Demo.lifo groups 0
                     (Demo.task Demo.posts_group Demo.post1)
                     (λ _, HookResolved (HObject (Some [VStr "a"; VStr "b"])))
                     (VStr "a") (VStr "b") _ _ _ _)); reflexivity.
  - vm_compute. reflexivity.
Defined.

(** C10: a record whose hook resolves to [undefined], or to an object
    without [additionalNodeIds], does not fail: nothing is added to the
    ledger or to the side-effect list for the hook, the commit of the node
    is still called, and, the commit resolving, the unit pushes exactly its
    own id and its promise does not reject. *)
Theorem hook_without_additional_ids `{Collaborators} sched groups u t hook r :
  tasks_of groups !! u = Some t →
  hook_of (derive_path (node t)) = Some hook →
  hook (hook_args (derive_path (node t))
          (build_remoteNode (derive_path (node t)))) = HookResolved r →
  r = HUndefined ∨ r = HObject None →
  createNode (build_remoteNode (derive_path (node t))) = true →
  let st := store (onIdle sched (tasks_of groups) empty_store) in
  createdNodeIds st
  ≡ₚ [get (node t) "id"] ++ (delete u (tasks_of groups) ≫= unit_created)
  ∧ totalSideEffectNodes st
    ≡ₚ delete u (tasks_of groups) ≫= unit_side_effects
  ∧ EvCreateNode u (build_remoteNode (derive_path (node t))) ∈ log st
  ∧ EvCreated u (get (node t) "id") ∈ log st
  ∧ EvUnitRejected u ∉ log st.
Proof.
  intros Ht Hhook Hr Hnone Hc st.
  destruct (unit_created_hook t hook _ Hhook Hr) as (Hcreated & Hside & Hrej).
  assert (Hids : additionalNodeIds_of r = None) by (by destruct Hnone as [->| ->]).
  rewrite Hc, Hids in Hcreated. rewrite Hids in Hside.
  simpl in Hcreated, Hside. split_and!.
  - subst st. rewrite onIdle_created. simpl.
    by rewrite (bind_delete unit_created _ u t Ht), Hcreated.
  - subst st. rewrite onIdle_side_effects. simpl.
    by rewrite (bind_delete unit_side_effects _ u t Ht), Hside.
  - subst st. rewrite (unit_event_logged sched groups u t) by done.
    by apply unit_events_create.
  - subst st. rewrite (unit_event_logged sched groups u t) by done.
    by apply unit_events_created_in.
  - subst st. rewrite (unit_event_logged sched groups u t) by done.
    rewrite unit_events_rejected, Hrej, Hc. by intros [|].
Qed.

Lemma hook_without_additional_ids_witness :
  let H := Demo.host false None Demo.catalog in
  let groups := [Demo.posts_group; Demo.pages_group] in
  let st := store (onIdle Demo.lifo (tasks_of groups) empty_store) in
  createdNodeIds st
  ≡ₚ [VStr "g1"] ++ (delete 2 (tasks_of groups) ≫= unit_created)
  ∧ totalSideEffectNodes st
    ≡ₚ delete 2 (tasks_of groups) ≫= unit_side_effects
  ∧ EvUnitRejected 2 ∉ log st.
Proof.
  intros H groups st.
  assert (Hhook : hook_of (derive_path Demo.page1)
                  = Some (λ _, HookResolved HUndefined))
    by (vm_compute; reflexivity).
  assert (Hcommit : createNode (build_remoteNode (derive_path Demo.page1))
                    = true) by reflexivity.
  destruct (hook_without_additional_ids Demo.lifo groups 2
              (Demo.task Demo.pages_group Demo.page1)
              (λ _, HookResolved HUndefined) HUndefined
              eq_refl Hhook eq_refl (or_introl eq_refl) Hcommit)
    as (H1 & H2 & _ & _ & H5).
  split_and!; [exact H1|exact H2|exact H5].
Defined.

(** ** The expansion pass *)

(** C5: the fetch of the referenced media items is called only when the
    MediaItem setting is eager and the list of referenced ids is not empty,
    and then with that duplicate-free list; whenever the function resolves,
    it resolves to the ledger followed by these ids in that case and to the
    ledger alone in every other case.  A run that gets to the queue (the
    general settings read, the expression of lines 132-136 built) calls the
    fetch, once and after the queue has drained, exactly in that case and
    resolves when the fetch does; in every other case it calls no such
    fetch and resolves.  Under the lazy setting the list is always
    empty. *)
Theorem expansion_when_eager_and_referenced `{Collaborators} sched groups :
  let st := store (onIdle sched (tasks_of groups) empty_store) in
  let referenced := referencedMediaItemNodeIds st in
  let r := createGatsbyNodesFromWPGQLContentNodes sched groups in
  NoDup referenced
  ∧ (mediaItemLazyNodes = true → referenced = [])
  ∧ (∀ ids, EvFetchReferenced ids ∈ r.1 →
            mediaItemLazyNodes = false ∧ referenced ≠ [] ∧ ids = referenced)
  ∧ (∀ created, r.2 = Ok created →
       (mediaItemLazyNodes = false → referenced ≠ [] →
        EvFetchReferenced referenced ∈ r.1
        ∧ created = createdNodeIds st ++ map VStr referenced)
       ∧ (mediaItemLazyNodes = true ∨ referenced = [] →
          created = createdNodeIds st))
  ∧ (∀ wpUrl,
       generalSettingsUrl = Ok wpUrl →
       newRegExp (anchorTagRegex_source wpUrl) "gim" = true →
       (mediaItemLazyNodes = false → referenced ≠ [] →
        r.1 = log st ++ [EvFetchReferenced referenced]
        ∧ (∀ ids, EvFetchReferenced ids ∉ log st)
        ∧ (fetchReferencedMediaItemsAndCreateNodes referenced = true →
           r.2 = Ok (createdNodeIds st ++ map VStr referenced)))
       ∧ (mediaItemLazyNodes = true ∨ referenced = [] →
          (∀ ids, EvFetchReferenced ids ∉ r.1)
          ∧ r.2 = Ok (createdNodeIds st))).
Proof.
  intros st referenced r.
  assert (Hnone : ∀ ids, EvFetchReferenced ids ∉ log st).
  { intros ids Hin. pose proof (materialized_stage sched groups) as Hst.
    rewrite Forall_forall in Hst. by apply Hst in Hin. }
  assert (Hlazy : mediaItemLazyNodes = true → referenced = []).
  { intros Hl. subst referenced st.
    by rewrite onIdle_referenced, foldl_scan_lazy. }
  assert (Hqueue : ∀ wpUrl,
            generalSettingsUrl = Ok wpUrl →
            newRegExp (anchorTagRegex_source wpUrl) "gim" = true →
            (mediaItemLazyNodes = false → referenced ≠ [] →
             r.1 = log st ++ [EvFetchReferenced referenced]
             ∧ (∀ ids, EvFetchReferenced ids ∉ log st)
             ∧ (fetchReferencedMediaItemsAndCreateNodes referenced = true →
                r.2 = Ok (createdNodeIds st ++ map VStr referenced))
             ∧ (∀ created, r.2 = Ok created →
                created = createdNodeIds st ++ map VStr referenced))
            ∧ (mediaItemLazyNodes = true ∨ referenced = [] →
               (∀ ids, EvFetchReferenced ids ∉ r.1)
               ∧ r.2 = Ok (createdNodeIds st))).
  { intros wpUrl Hurl Hre. split.
    - intros Hl Hne. subst r.
      unfold createGatsbyNodesFromWPGQLContentNodes. rewrite Hurl, Hre, Hl.
      fold st. fold referenced.
      destruct referenced as [|x refs] eqn:Href; [done|]. simpl.
      destruct (fetchReferencedMediaItemsAndCreateNodes _); simpl;
        split_and!; try done. by intros created [= <-].
    - intros Hcase. subst r.
      unfold createGatsbyNodesFromWPGQLContentNodes. rewrite Hurl, Hre.
      fold st. fold referenced.
      assert (negb mediaItemLazyNodes && (0 <? length referenced) = false)
        as ->.
      { destruct Hcase as [->| ->]; [done|]. simpl. apply andb_false_r. }
      simpl. split; [apply Hnone|done]. }
  assert (Hstop : r = ([EvGeneralSettings], Err)
                  ∨ ∃ wpUrl,
                      generalSettingsUrl = Ok wpUrl
                      ∧ newRegExp (anchorTagRegex_source wpUrl) "gim" = true).
  { subst r. unfold createGatsbyNodesFromWPGQLContentNodes.
    destruct generalSettingsUrl as [wpUrl|]; [|by left].
    destruct (newRegExp _ _) eqn:Hre; [|by left]. right. by exists wpUrl. }
  split_and!.
  - subst referenced st. apply onIdle_NoDup_referenced. simpl. apply NoDup_nil_2.
  - done.
  - intros ids Hin.
    destruct Hstop as [Hr|(wpUrl & Hurl & Hre)].
    { rewrite Hr in Hin. by apply list_elem_of_singleton in Hin. }
    destruct (Hqueue wpUrl Hurl Hre) as [Heager Hother].
    destruct mediaItemLazyNodes eqn:Hl.
    { destruct Hother as [Hno _]; [by left|]. by apply Hno in Hin. }
    destruct (referenced) as [|x refs] eqn:Href.
    { destruct Hother as [Hno _]; [by right|]. by apply Hno in Hin. }
    destruct Heager as (Hlog & _); [done..|].
    rewrite Hlog, elem_of_app, list_elem_of_singleton in Hin.
    destruct Hin as [Hin|[= ->]]; [by apply Hnone in Hin|done].
  - intros created Hres.
    destruct Hstop as [Hr|(wpUrl & Hurl & Hre)]; [by rewrite Hr in Hres|].
    destruct (Hqueue wpUrl Hurl Hre) as [Heager Hother]. split.
    + intros Hl Hne. destruct (Heager Hl Hne) as (Hlog & _ & _ & Hcreated).
      split; [|by apply Hcreated].
      rewrite Hlog, elem_of_app, list_elem_of_singleton. by right.
    + intros Hcase. destruct (Hother Hcase) as [_ Hok]. congruence.
  - intros wpUrl Hurl Hre. destruct (Hqueue wpUrl Hurl Hre) as [Heager Hother].
    split; [|done]. intros Hl Hne.
    by destruct (Heager Hl Hne) as (? & ? & ? & _).
Qed.

Lemma expansion_when_eager_and_referenced_witness :
  let H := Demo.host false None Demo.catalog in
  let groups := [Demo.posts_group] in
  let st := store (onIdle Demo.fifo (tasks_of groups) empty_store) in
  let r := createGatsbyNodesFromWPGQLContentNodes Demo.fifo groups in
  referencedMediaItemNodeIds st = ["m2"; "m1"]
  ∧ r.1 = log st ++ [EvFetchReferenced (referencedMediaItemNodeIds st)]
  ∧ r.2 = Ok (createdNodeIds st
              ++ map VStr (referencedMediaItemNodeIds st)).
Proof.
  intros H groups st r.
  assert (Href : referencedMediaItemNodeIds st = ["m2"; "m1"])
    by (vm_compute; reflexivity).
  assert (Hurl : generalSettingsUrl = Ok "https://wp.test") by reflexivity.
  assert (Hre : newRegExp (anchorTagRegex_source "https://wp.test") "gim"
                = true) by reflexivity.
  destruct (expansion_when_eager_and_referenced Demo.fifo groups)
    as (_ & _ & _ & _ & Hqueue).
  destruct (Hqueue "https://wp.test" Hurl Hre) as [Heager _].
  destruct Heager as (Hlog & _ & Hres).
  - reflexivity.
  - fold st. rewrite Href. discriminate.
  - split; [exact Href|]. split; [exact Hlog|]. apply Hres. reflexivity.
Defined.

(** ** Chunks and completion orders *)

Lemma chunk_go_concat {A} fuel n (l : list A) :
  1 ≤ n → length l ≤ fuel → concat (chunk_go fuel n l) = l.
Proof.
  intros Hn. revert l. induction fuel as [|fuel IH]; intros l Hl.
  - destruct l; [done|simpl in Hl; lia].
  - destruct l as [|x l]; [done|].
    cbn [chunk_go concat]. rewrite IH; [apply take_drop|].
    rewrite length_drop. simpl in *. lia.
Qed.

Lemma chunk_go_lookup {A} fuel n (l : list A) i :
  1 ≤ n → length l ≤ fuel →
  chunk_go fuel n l !! i
  = if decide (i * n < length l) then Some (take n (drop (i * n) l)) else None.
Proof.
  intros Hn. revert l i. induction fuel as [|fuel IH]; intros l i Hl.
  - destruct l; [|simpl in Hl; lia]. cbn [chunk_go length].
    rewrite lookup_nil. case_decide; [lia|done].
  - destruct l as [|x l].
    { cbn [chunk_go length]. rewrite lookup_nil. case_decide; [lia|done]. }
    cbn [chunk_go]. destruct i as [|i].
    + rewrite decide_True by (simpl; lia). done.
    + cbn [lookup list_lookup]. rewrite IH by (rewrite length_drop; simpl in *; lia).
      rewrite length_drop, drop_drop.
      replace (n + i * n) with (S i * n) by lia.
      destruct (decide (S i * n < length (x :: l))).
      * by rewrite decide_True by lia.
      * by rewrite decide_False by lia.
Qed.

Lemma chunk_go_elem {A} fuel n (l : list A) batch x :
  batch ∈ chunk_go fuel n l → x ∈ batch → x ∈ l.
Proof.
  revert l. induction fuel as [|fuel IH]; intros l Hb Hx; simpl in Hb.
  - by apply elem_of_nil in Hb.
  - destruct l as [|y l]; [by apply elem_of_nil in Hb|].
    rewrite <-(take_drop n (y :: l)), elem_of_app.
    apply elem_of_cons in Hb as [->|Hb]; [by left|right; eauto].
Qed.

Lemma chunk_elem {A} (l : list A) size batch x :
  batch ∈ chunk l size → x ∈ batch → x ∈ l.
Proof.
  unfold chunk. destruct (_ || _); [by intros ?%elem_of_nil|].
  apply chunk_go_elem.
Qed.

(** With a size of at least one the chunks are the consecutive slices of
    that size, in order. *)
Lemma chunk_lookup {A} (l : list A) size i :
  (1 ≤ size)%Z →
  chunk l size !! i
  = if decide (i * Z.to_nat size < length l)
    then Some (take (Z.to_nat size) (drop (i * Z.to_nat size) l))
    else None.
Proof.
  intros Hsize. unfold chunk.
  replace (Z.to_nat (Z.max size 0)) with (Z.to_nat size) by lia.
  destruct l as [|x l].
  { cbn [length Nat.eqb orb]. rewrite lookup_nil. case_decide; [lia|done]. }
  replace (Z.to_nat size <? 1) with false by (symmetry; apply Nat.ltb_ge; lia).
  change (length (x :: l) =? 0) with false. cbn [orb].
  apply chunk_go_lookup; [lia|done].
Qed.

Lemma chunk_concat {A} (l : list A) size :
  (1 ≤ size)%Z → concat (chunk l size) = l.
Proof.
  intros Hsize. unfold chunk.
  destruct l as [|x l]; [done|].
  replace (Z.to_nat (Z.max size 0) <? 1) with false
    by (symmetry; apply Nat.ltb_ge; lia).
  change (length (x :: l) =? 0) with false. cbn [orb].
  apply chunk_go_concat; [lia|done].
Qed.

(** A size below one gives no chunk. *)
Lemma chunk_below_one {A} (l : list A) size : (size < 1)%Z → chunk l size = [].
Proof.
  intros Hsize. unfold chunk.
  replace (Z.to_nat (Z.max size 0) <? 1) with true
    by (symmetry; apply Nat.ltb_lt; lia).
  by rewrite orb_true_r.
Qed.

Lemma completion_order_perm {A} (picks : nat → nat) n (l : list A) :
  length l = n → completion_order picks n l ≡ₚ l.
Proof.
  revert l. induction n as [|n IH]; intros l Hl.
  - by destruct l.
  - cbn [completion_order].
    destruct (lookup_lt_is_Some_2 l (picks n mod length l)) as [x Hx];
      [apply Nat.mod_upper_bound; lia|].
    rewrite Hx. rewrite IH.
    + symmetry. by apply delete_Permutation.
    + rewrite length_delete by eauto. lia.
Qed.

(** ** The fetch of the content types *)

Lemma starts_of_app b l1 l2 :
  starts_of b (l1 ++ l2) = starts_of b l1 ++ starts_of b l2.
Proof. apply omap_app. Qed.

Lemma dones_of_app b l1 l2 :
  dones_of b (l1 ++ l2) = dones_of b l1 ++ dones_of b l2.
Proof. apply omap_app. Qed.

Lemma starts_of_starts b b' (l : list QueryInfo) :
  starts_of b' (map (EvFetchStart b) l) = if decide (b = b') then l else [].
Proof.
  unfold starts_of. destruct (decide (b = b')) as [->|Hne];
    induction l as [|q l IH]; simpl; try done.
  - rewrite decide_True by done. by f_equal.
  - by rewrite decide_False.
Qed.

Lemma starts_of_dones b b' (l : list QueryInfo) :
  starts_of b' (map (EvFetchDone b) l) = [].
Proof. unfold starts_of. by induction l. Qed.

Lemma dones_of_dones b b' (l : list QueryInfo) :
  dones_of b' (map (EvFetchDone b) l) = if decide (b = b') then l else [].
Proof.
  unfold dones_of. destruct (decide (b = b')) as [->|Hne];
    induction l as [|q l IH]; simpl; try done.
  - rewrite decide_True by done. by f_equal.
  - by rewrite decide_False.
Qed.

Lemma dones_of_starts b b' (l : list QueryInfo) :
  dones_of b' (map (EvFetchStart b) l) = [].
Proof. unfold dones_of. by induction l. Qed.

Lemma dones_of_later b (l : list event) :
  Forall (λ e, b < batch_no e) l → dones_of b l = [].
Proof.
  induction 1 as [|e l He Hl IH]; [done|].
  change (e :: l) with ([e] ++ l). rewrite dones_of_app, IH, app_nil_r.
  destruct e; try done. unfold dones_of. simpl in *.
  by rewrite decide_False by lia.
Qed.

Lemma starts_of_later b (l : list event) :
  Forall (λ e, b < batch_no e) l → starts_of b l = [].
Proof.
  induction 1 as [|e l He Hl IH]; [done|].
  change (e :: l) with ([e] ++ l). rewrite starts_of_app, IH, app_nil_r.
  destruct e; try done. unfold starts_of. simpl in *.
  by rewrite decide_False by lia.
Qed.

Section FetchProperties.
Context `{Collaborators}.

Lemma skipped_upfront_false q :
  skipped_upfront q = false
  ↔ lazyNodes (settings q) = false
    ∧ nodesTypeName (typeInfo q) ≠ "MediaItem".
Proof.
  unfold skipped_upfront. rewrite <-String.eqb_neq.
  destruct (lazyNodes _), (String.eqb _ _); simpl; intuition congruence.
Qed.

Lemma elem_of_fetched_upfront q queries :
  q ∈ fetched_upfront queries ↔ q ∈ queries ∧ skipped_upfront q = false.
Proof.
  unfold fetched_upfront.
  by rewrite !list_elem_of_In, filter_In, negb_true_iff.
Qed.

Lemma elem_of_getContentTypeQueryInfos q :
  q ∈ getContentTypeQueryInfos
  ↔ q ∈ nodeQueries ∧ exclude (settings q) = false.
Proof.
  unfold getContentTypeQueryInfos.
  by rewrite !list_elem_of_In, filter_In, negb_true_iff.
Qed.

Lemma completed_batch_perm order b queries :
  completed_batch order b queries ≡ₚ fetched_upfront queries.
Proof. by apply completion_order_perm. Qed.

Lemma group_of_Some q g :
  group_of q = Some g ↔ fetchWPGQLContentNodes q = Ok (Some g).
Proof.
  unfold group_of. destruct (fetchWPGQLContentNodes q) as [[g'|]|];
    intuition congruence.
Qed.

(** The groups are never empty. *)
Lemma fetchWPGQLContentNodes_group q g :
  fetchWPGQLContentNodes q = Ok (Some g) → allNodesOfContentType g ≠ [].
Proof.
  unfold fetchWPGQLContentNodes.
  destruct (fetch_list_queries _ _ _) as [all|]; [|done].
  destruct all as [|x all]; simpl; [done|]. by intros [= <-].
Qed.

Lemma fetch_list_queries_empty q queries :
  Forall (λ nodeListQuery,
            paginatedWpNodeFetch (page_args q nodeListQuery) = Ok [])
         queries →
  fetch_list_queries q queries [] = Ok [].
Proof. induction 1 as [|x l Hx Hl IH]; simpl; [done|]. by rewrite Hx. Qed.

(** A settled fetch resolved or rejected. *)
Lemma settle_cases b q :
  (fetchWPGQLContentNodes q ≠ Err ∧ settle b q = EvFetchDone b q)
  ∨ (fetchWPGQLContentNodes q = Err ∧ settle b q = EvFetchRejected b q).
Proof.
  unfold settle. destruct (fetchWPGQLContentNodes q); [by left|by right].
Qed.

Lemma settle_stage b (l : list QueryInfo) :
  Forall (λ e, stage e = 0) (map (settle b) l).
Proof.
  apply Forall_forall. intros e (q & -> & _)%list_elem_of_fmap.
  by destruct (settle_cases b q) as [[_ ->]|[_ ->]].
Qed.

Lemma settle_not_start b (l : list QueryInfo) b' q' :
  EvFetchStart b' q' ∉ map (settle b) l.
Proof.
  intros (q & Heq & _)%list_elem_of_fmap.
  by destruct (settle_cases b q) as [[_ Hs]|[_ Hs]]; rewrite Hs in Heq.
Qed.

Lemma join_batch_spec b completed groups :
  (Forall (λ q, fetchWPGQLContentNodes q ≠ Err) completed →
   join_batch b completed groups
   = (map (EvFetchDone b) completed,
      Ok (groups ++ omap group_of completed)))
  ∧ (∀ groups', (join_batch b completed groups).2 = Ok groups' →
     Forall (λ q, fetchWPGQLContentNodes q ≠ Err) completed)
  ∧ Forall (λ e, stage e = 0) (join_batch b completed groups).1
  ∧ (∀ b' q, EvFetchStart b' q ∉ (join_batch b completed groups).1).
Proof.
  revert groups. induction completed as [|q completed IH]; intros groups.
  { simpl. rewrite app_nil_r. split_and!; try done.
    intros b' q' Hin. by apply elem_of_nil in Hin. }
  cbn [join_batch]. rewrite (omap_app group_of [q] completed).
  destruct (fetchWPGQLContentNodes q) as [r|] eqn:Hq.
  - set (groups1 := match r with Some g => groups ++ [g] | None => groups end).
    destruct (IH groups1) as (Hok & Hres & Hstage & Hstart).
    destruct (join_batch b completed groups1) as [l res] eqn:Hj.
    simpl in *. split_and!.
    + intros [_ Hall]%Forall_cons. injection (Hok Hall) as -> ->.
      assert (group_of q = r) as ->
        by (unfold group_of; rewrite Hq; by destruct r).
      subst groups1. destruct r; simpl; by rewrite <-?app_assoc.
    + intros groups' Heq. apply Forall_cons. split; [by rewrite Hq|].
      by eapply Hres.
    + by apply Forall_cons.
    + intros b' q' [?|?]%elem_of_cons; [done|]. by eapply Hstart.
  - simpl. split_and!.
    + by intros [? _]%Forall_cons.
    + done.
    + constructor; [done|apply settle_stage].
    + intros b' q' [?|Hin]%elem_of_cons; [done|].
      by apply settle_not_start in Hin.
Qed.

Lemma fetch_batches_spec order b chunks groups :
  (Forall (λ q, fetchWPGQLContentNodes q ≠ Err) (chunks ≫= fetched_upfront) →
   fetch_batches order b chunks groups
   = (batches_log order b chunks,
      Ok (groups ++ omap group_of (batches_completed order b chunks))))
  ∧ (∀ groups', (fetch_batches order b chunks groups).2 = Ok groups' →
     Forall (λ q, fetchWPGQLContentNodes q ≠ Err)
            (chunks ≫= fetched_upfront))
  ∧ Forall (λ e, stage e = 0) (fetch_batches order b chunks groups).1
  ∧ (∀ b' q, EvFetchStart b' q ∈ (fetch_batches order b chunks groups).1 →
     ∃ queries, queries ∈ chunks ∧ q ∈ fetched_upfront queries).
Proof.
  revert b groups. induction chunks as [|queries chunks IH]; intros b groups.
  { simpl. rewrite app_nil_r. split_and!; try done.
    intros b' q' Hin. by apply elem_of_nil in Hin. }
  cbn [fetch_batches batches_log batches_completed].
  rewrite bind_cons, omap_app.
  fold (completed_batch order b queries).
  pose proof (completed_batch_perm order b queries) as Hperm.
  destruct (join_batch_spec b (completed_batch order b queries) groups)
    as (Hok1 & Hres1 & Hstage1 & Hstart1).
  destruct (join_batch b (completed_batch order b queries) groups)
    as [l1 r1] eqn:Hj.
  assert (Hstarts : Forall (λ e, stage e = 0)
                      (map (EvFetchStart b) (fetched_upfront queries))).
  { apply Forall_forall. intros e (q & -> & _)%list_elem_of_fmap. done. }
  destruct r1 as [groups1|]; simpl in *.
  - destruct (IH (S b) groups1) as (Hok & Hres & Hstage & Hstart).
    destruct (fetch_batches order (S b) chunks groups1) as [l2 r2] eqn:Hf.
    simpl in *. split_and!.
    + rewrite Forall_app. intros [Hall1 Hall2].
      rewrite <-Hperm in Hall1.
      injection (Hok1 Hall1) as -> ->. injection (Hok Hall2) as -> ->.
      by rewrite <-!app_assoc.
    + intros groups' ->. rewrite Forall_app. split; [|by eapply Hres].
      rewrite <-Hperm. by eapply Hres1.
    + by rewrite !Forall_app.
    + intros b' q'. rewrite !elem_of_app.
      intros [(q & [= <- <-] & Hq)%list_elem_of_fmap|[Hin|Hin]].
      * exists queries. split; [by left|done].
      * by apply Hstart1 in Hin.
      * destruct (Hstart b' q' Hin) as (qs & Hqs & Hq').
        exists qs. split; [by right|done].
  - split_and!.
    + rewrite Forall_app. intros [Hall1 _]. rewrite <-Hperm in Hall1.
      by specialize (Hok1 Hall1).
    + done.
    + by rewrite Forall_app.
    + intros b' q'. rewrite elem_of_app.
      intros [(q & [= <- <-] & Hq)%list_elem_of_fmap|Hin].
      * exists queries. split; [by left|done].
      * by apply Hstart1 in Hin.
Qed.

(** *** The log of a run without rejection *)

Lemma starts_of_batches_log order b chunks b' :
  starts_of b' (batches_log order b chunks)
  = if decide (b ≤ b')
    then fetched_upfront (default [] (chunks !! (b' - b)))
    else [].
Proof.
  revert b. induction chunks as [|queries chunks IH]; intros b.
  { simpl. by case_decide. }
  cbn [batches_log].
  rewrite !starts_of_app, starts_of_starts, starts_of_dones, IH. simpl.
  destruct (decide (b = b')) as [->|Hne].
  - rewrite decide_False, decide_True by lia.
    rewrite Nat.sub_diag. simpl. by rewrite app_nil_r.
  - destruct (decide (b ≤ b')).
    + rewrite decide_True by lia.
      by replace (b' - b) with (S (b' - S b)) by lia.
    + by rewrite decide_False by lia.
Qed.

Lemma dones_of_batches_log order b chunks b' :
  dones_of b' (batches_log order b chunks)
  = if decide (b ≤ b')
    then completed_batch order b' (default [] (chunks !! (b' - b)))
    else [].
Proof.
  revert b. induction chunks as [|queries chunks IH]; intros b.
  { simpl. by case_decide. }
  cbn [batches_log].
  rewrite !dones_of_app, dones_of_starts, dones_of_dones, IH. simpl.
  destruct (decide (b = b')) as [->|Hne].
  - rewrite decide_False, decide_True by lia.
    rewrite Nat.sub_diag. simpl. by rewrite app_nil_r.
  - destruct (decide (b ≤ b')).
    + rewrite decide_True by lia.
      by replace (b' - b) with (S (b' - S b)) by lia.
    + by rewrite decide_False by lia.
Qed.

(** The batches follow one another in the log. *)
Lemma batches_log_sorted order b chunks :
  StronglySorted (λ e1 e2, batch_no e1 ≤ batch_no e2)
                 (batches_log order b chunks)
  ∧ Forall (λ e, b ≤ batch_no e) (batches_log order b chunks).
Proof.
  revert b. induction chunks as [|queries chunks IH]; intros b.
  { split; constructor. }
  cbn [batches_log]. destruct (IH (S b)) as [Hsorted Hge].
  assert (Hb : ∀ e, e ∈ map (EvFetchStart b) (fetched_upfront queries)
                       ++ map (EvFetchDone b) (completed_batch order b queries)
                    → batch_no e = b).
  { intros e [Hin|Hin]%elem_of_app;
      apply list_elem_of_fmap in Hin as (q & -> & _); done. }
  rewrite app_assoc. split.
  - apply StronglySorted_app. split_and!; [| |done].
    + intros e1 e2 H1 H2. rewrite (Hb e1 H1).
      rewrite Forall_forall in Hge. specialize (Hge e2 H2). lia.
    + generalize dependent (map (EvFetchStart b) (fetched_upfront queries)
                      ++ map (EvFetchDone b) (completed_batch order b queries)).
      intros l Hl. induction l as [|e l IHl]; constructor.
      * apply IHl. intros e' He'. apply Hl. by right.
      * apply Forall_forall. intros e' He'.
        rewrite (Hl e) by (by left). rewrite (Hl e') by (by right). done.
  - apply Forall_app. split.
    + apply Forall_forall. intros e He. rewrite (Hb e He). done.
    + eapply Forall_impl; [exact Hge|]. simpl. lia.
Qed.

Lemma batches_log_below order b chunks :
  Forall (λ e, batch_no e < b + length chunks ∧ is_rejected e = false)
         (batches_log order b chunks).
Proof.
  revert b. induction chunks as [|queries chunks IH]; intros b.
  { constructor. }
  cbn [batches_log length]. rewrite !Forall_app. split_and!.
  - apply Forall_forall. intros e (q & -> & _)%list_elem_of_fmap.
    simpl. split; [lia|done].
  - apply Forall_forall. intros e (q & -> & _)%list_elem_of_fmap.
    simpl. split; [lia|done].
  - eapply Forall_impl; [apply (IH (S b))|]. simpl. intros e [? ?].
    split; [lia|done].
Qed.

(** *** The log of any run *)

Lemma join_batch_log b completed groups :
  (join_batch b completed groups).1 = map (settle b) completed.
Proof.
  revert groups. induction completed as [|q completed IH]; intros groups;
    [done|].
  cbn [join_batch map]. unfold settle at 2.
  destruct (fetchWPGQLContentNodes q) as [r|]; [|done].
  specialize (IH (match r with Some g => groups ++ [g] | None => groups end)).
  destruct (join_batch b completed _) as [l res]. simpl in *. by rewrite IH.
Qed.

Lemma starts_of_settles b b' (l : list QueryInfo) :
  starts_of b' (map (settle b) l) = [].
Proof.
  unfold starts_of. induction l as [|q l IH]; [done|]. simpl.
  by destruct (settle_cases b q) as [[_ ->]|[_ ->]].
Qed.

Lemma settle_batch_no b (l : list QueryInfo) :
  Forall (λ e, batch_no e = b) (map (settle b) l).
Proof.
  apply Forall_forall. intros e (q & -> & _)%list_elem_of_fmap.
  by destruct (settle_cases b q) as [[_ ->]|[_ ->]].
Qed.

(** The batches before the one of the first rejection run as in a run
    without rejection; the batch of the rejection starts all its fetches,
    which all settle; no later batch is run. *)
Lemma fetch_batches_log order b chunks groups :
  ∃ k tail,
    (fetch_batches order b chunks groups).1
    = batches_log order b (take k chunks) ++ tail
    ∧ match (fetch_batches order b chunks groups).2 with
      | Ok _ => k = length chunks ∧ tail = []
      | Err =>
          ∃ queries,
            chunks !! k = Some queries
            ∧ tail
              = map (EvFetchStart (b + k)) (fetched_upfront queries)
                ++ map (settle (b + k)) (completed_batch order (b + k) queries)
      end.
Proof.
  revert b groups. induction chunks as [|queries chunks IH]; intros b groups.
  { exists 0, []. by simpl. }
  cbn [fetch_batches]. fold (completed_batch order b queries).
  pose proof (join_batch_log b (completed_batch order b queries) groups)
    as Hlog.
  pose proof (join_batch_spec b (completed_batch order b queries) groups)
    as (Hok & _).
  destruct (join_batch b (completed_batch order b queries) groups)
    as [l1 [groups1|]] eqn:Hjoin; simpl in Hlog; subst l1.
  - assert (Hdone : map (settle b) (completed_batch order b queries)
                    = map (EvFetchDone b) (completed_batch order b queries)).
    { destruct (join_batch_spec b (completed_batch order b queries) groups)
        as (_ & Hall & _).
      rewrite Hjoin in Hall. specialize (Hall groups1 eq_refl).
      apply map_ext_Forall. eapply Forall_impl; [exact Hall|].
      intros q Hq. by destruct (settle_cases b q) as [[_ ->]|[? _]]. }
    destruct (IH (S b) groups1) as (k & tail & Hrest & Hres).
    destruct (fetch_batches order (S b) chunks groups1) as [l2 r2].
    simpl in *. exists (S k), tail. cbn [take batches_log].
    rewrite Hrest, Hdone, <-!app_assoc. split; [done|].
    destruct r2 as [groups2|].
    + destruct Hres as [-> ->]. done.
    + destruct Hres as (queries' & Hlook & ->). exists queries'.
      by replace (b + S k) with (S b + k) by lia.
  - exists 0, (map (EvFetchStart b) (fetched_upfront queries)
               ++ map (settle b) (completed_batch order b queries)).
    simpl. split; [done|]. exists queries.
    by rewrite Nat.add_0_r.
Qed.

(** The batches follow one another in the log of any run. *)
Lemma fetch_batches_sorted order b chunks groups :
  StronglySorted (λ e1 e2, batch_no e1 ≤ batch_no e2)
                 (fetch_batches order b chunks groups).1.
Proof.
  destruct (fetch_batches_log order b chunks groups)
    as (k & tail & -> & Hres).
  destruct (batches_log_sorted order b (take k chunks)) as [Hsorted _].
  destruct ((fetch_batches order b chunks groups).2).
  { destruct Hres as [_ ->]. by rewrite app_nil_r. }
  destruct Hres as (queries & Hlook & ->).
  assert (Hk : length (take k chunks) = k).
  { apply lookup_lt_Some in Hlook. rewrite length_take. lia. }
  assert (Htail : Forall (λ e, batch_no e = b + k)
            (map (EvFetchStart (b + k)) (fetched_upfront queries)
             ++ map (settle (b + k)) (completed_batch order (b + k) queries))).
  { rewrite Forall_app. split; [|apply settle_batch_no].
    apply Forall_forall. by intros e (q & -> & _)%list_elem_of_fmap. }
  apply StronglySorted_app. split_and!; [|done|].
  - intros e1 e2 H1 H2.
    pose proof (batches_log_below order b (take k chunks)) as Hbelow.
    rewrite Forall_forall in Hbelow, Htail.
    destruct (Hbelow e1 H1) as [Hlt _]. rewrite (Htail e2 H2). lia.
  - generalize dependent
      (map (EvFetchStart (b + k)) (fetched_upfront queries)
       ++ map (settle (b + k)) (completed_batch order (b + k) queries)).
    intros l Hl. induction Hl as [|e l He Hl IHl]; constructor; [done|].
    eapply Forall_impl; [exact Hl|]. simpl. intros e' ->. lia.
Qed.

(** The fetches a run starts in batch [b'], and those that resolved once a
    later batch is under way. *)
Lemma fetch_batches_starts order chunks groups :
  ∃ n,
    n ≤ length chunks
    ∧ (∀ b', starts_of b' (fetch_batches order 0 chunks groups).1
             = if decide (b' < n)
               then fetched_upfront (default [] (chunks !! b'))
               else [])
    ∧ (∀ b', S b' < n →
             dones_of b' (fetch_batches order 0 chunks groups).1
             = completed_batch order b' (default [] (chunks !! b')))
    ∧ (∀ groups', (fetch_batches order 0 chunks groups).2 = Ok groups' →
                  n = length chunks).
Proof.
  destruct (fetch_batches_log order 0 chunks groups)
    as (k & tail & -> & Hres).
  destruct ((fetch_batches order 0 chunks groups).2) as [groups'|].
  - destruct Hres as [-> ->]. exists (length chunks).
    rewrite firstn_all, app_nil_r. split_and!; [done| | |done].
    + intros b'. rewrite starts_of_batches_log, Nat.sub_0_r.
      rewrite decide_True by lia. case_decide; [done|].
      by rewrite lookup_ge_None_2 by lia.
    + intros b' _. rewrite dones_of_batches_log, Nat.sub_0_r.
      by rewrite decide_True by lia.
  - destruct Hres as (queries & Hlook & ->). simpl.
    pose proof (lookup_lt_Some _ _ _ Hlook) as Hk.
    exists (S k). split_and!; [lia| | |done].
    + intros b'.
      rewrite !starts_of_app, starts_of_batches_log, starts_of_starts,
        starts_of_settles, Nat.sub_0_r, app_nil_r.
      rewrite decide_True by lia.
      destruct (decide (k = b')) as [<-|Hne].
      * rewrite lookup_take_ge by lia. rewrite Hlook.
        by rewrite decide_True by lia.
      * rewrite app_nil_r. case_decide.
        -- by rewrite lookup_take_lt by lia.
        -- by rewrite lookup_take_ge by lia.
    + intros b' Hb'.
      rewrite !dones_of_app, dones_of_batches_log, dones_of_starts, Nat.sub_0_r.
      rewrite decide_True by lia. rewrite lookup_take_lt by lia.
      rewrite (dones_of_later b'); [by rewrite app_nil_r|].
      eapply Forall_impl; [apply settle_batch_no|]. simpl. lia.
Qed.

End FetchProperties.

Lemma elem_of_concat {A} (x : A) (ls : list (list A)) :
  x ∈ concat ls ↔ ∃ l, l ∈ ls ∧ x ∈ l.
Proof.
  rewrite list_elem_of_In, in_concat. split; intros (l & Hl & Hx); exists l.
  - by rewrite !list_elem_of_In.
  - by rewrite <-!list_elem_of_In.
Qed.

Lemma elem_of_starts_of b q (l : list event) :
  q ∈ starts_of b l ↔ EvFetchStart b q ∈ l.
Proof.
  unfold starts_of. rewrite list_elem_of_omap. split.
  - intros (e & He & Hq). destruct e; try done.
    case_decide; [|done]. by simplify_eq.
  - intros Hin. exists (EvFetchStart b q). split; [done|].
    by rewrite decide_True.
Qed.

Section FetchClaims.
Context `{Collaborators}.

Lemma fetched_is_eligible q queries :
  queries ∈ chunk getContentTypeQueryInfos chunkSize →
  q ∈ fetched_upfront queries →
  q ∈ nodeQueries ∧ eligible q.
Proof.
  intros Hqs [Hq Hskip]%elem_of_fetched_upfront.
  apply (chunk_elem _ _ _ _ Hqs), elem_of_getContentTypeQueryInfos in Hq
    as [Hq Hex].
  apply skipped_upfront_false in Hskip as [Hlazy Hmedia]. by repeat split.
Qed.

(** A run without rejection logs the batches one after the other. *)
Lemma fetch_resolved_log order groups :
  (fetchWPGQLContentNodesByContentType order).2 = Ok groups →
  (fetchWPGQLContentNodesByContentType order).1
  = batches_log order 0 (chunk getContentTypeQueryInfos chunkSize)
  ∧ groups
    = omap group_of
        (batches_completed order 0 (chunk getContentTypeQueryInfos chunkSize)).
Proof.
  unfold fetchWPGQLContentNodesByContentType. intros Hok.
  destruct (fetch_batches_spec order 0
              (chunk getContentTypeQueryInfos chunkSize) [])
    as (Hlog & Hall & _).
  rewrite (Hlog (Hall _ Hok)) in Hok |- *. simpl in *. by simplify_eq.
Qed.

Lemma batches_completed_elem order b chunks q :
  q ∈ batches_completed order b chunks →
  ∃ queries, queries ∈ chunks ∧ q ∈ fetched_upfront queries.
Proof.
  revert b. induction chunks as [|queries chunks IH]; intros b; simpl.
  - by intros ?%elem_of_nil.
  - rewrite elem_of_app, completed_batch_perm. intros [Hq|Hq].
    + exists queries. split; [by left|done].
    + destruct (IH _ Hq) as (qs & Hqs & Hq'). exists qs.
      split; [by right|done].
Qed.

(** With an override that reads as an integer below one there is no batch
    and nothing is fetched. *)
Lemma no_fetch_below_one order :
  (chunkSize < 1)%Z → fetchWPGQLContentNodesByContentType order = ([], Ok []).
Proof.
  intros Hsize. unfold fetchWPGQLContentNodesByContentType.
  by rewrite chunk_below_one.
Qed.

Lemma chunk_default_lookup {A} (l : list A) size b :
  (1 ≤ size)%Z →
  default [] (chunk l size !! b)
  = take (Z.to_nat size) (drop (b * Z.to_nat size) l).
Proof.
  intros Hsize. rewrite chunk_lookup by done. case_decide; [done|].
  rewrite drop_ge by lia. by rewrite take_nil.
Qed.

(** The batches of any run: the first [k] batches are started, each with
    all its eligible entries; all of them but the last have all their
    fetches resolved; and a run that resolves starts every batch. *)
Lemma fetch_started_batches order :
  (1 ≤ chunkSize)%Z →
  let n := Z.to_nat chunkSize in
  let l := (fetchWPGQLContentNodesByContentType order).1 in
  ∃ k,
    (∀ b, starts_of b l
          = if decide (b < k)
            then fetched_upfront (take n (drop (b * n) getContentTypeQueryInfos))
            else [])
    ∧ (∀ b, S b < k →
            dones_of b l
            ≡ₚ fetched_upfront
                 (take n (drop (b * n) getContentTypeQueryInfos)))
    ∧ (∀ groups,
         (fetchWPGQLContentNodesByContentType order).2 = Ok groups →
         k = length (chunk getContentTypeQueryInfos chunkSize)).
Proof.
  intros Hsize n l. subst l. unfold fetchWPGQLContentNodesByContentType.
  destruct (fetch_batches_starts order
              (chunk getContentTypeQueryInfos chunkSize) [])
    as (k & _ & Hstarts & Hdones & Hall).
  exists k. split_and!.
  - intros b. rewrite Hstarts. by rewrite chunk_default_lookup.
  - intros b Hb. rewrite (Hdones b Hb), completed_batch_perm.
    by rewrite chunk_default_lookup.
  - done.
Qed.

Lemma fetch_sorted order :
  StronglySorted (λ e1 e2, batch_no e1 ≤ batch_no e2)
                 (fetchWPGQLContentNodesByContentType order).1.
Proof. apply fetch_batches_sorted. Qed.

End FetchClaims.

(** C2 (as amended): only eligible entries of the catalog are ever fetched
    upfront (not excluded, not lazy, not the MediaItem type), so that an
    excluded, a lazy or the media-item type gets no upfront fetch at all;
    and in a run that resolves with a batch size of at least one every
    eligible entry is fetched. *)
Theorem upfront_fetch_iff_eligible `{Collaborators} order q :
  (∀ b, EvFetchStart b q ∈ (fetchWPGQLContentNodesByContentType order).1 →
        q ∈ nodeQueries ∧ eligible q)
  ∧ ((1 ≤ chunkSize)%Z →
     (∃ groups, (fetchWPGQLContentNodesByContentType order).2 = Ok groups) →
     q ∈ nodeQueries → eligible q →
     ∃ b, EvFetchStart b q ∈ (fetchWPGQLContentNodesByContentType order).1).
Proof.
  split.
  - intros b Hin. unfold fetchWPGQLContentNodesByContentType in Hin.
    destruct (fetch_batches_spec order 0
                (chunk getContentTypeQueryInfos chunkSize) [])
      as (_ & _ & _ & Hstart).
    destruct (Hstart b q Hin) as (queries & Hqs & Hq).
    by eapply fetched_is_eligible.
  - intros Hsize [groups Hok] Hq (Hex & Hlazy & Hmedia).
    destruct (fetch_resolved_log order groups Hok) as [-> _].
    assert (Hin : q ∈ concat (chunk getContentTypeQueryInfos chunkSize)).
    { rewrite chunk_concat by done.
      by apply elem_of_getContentTypeQueryInfos. }
    apply elem_of_concat in Hin as (queries & Hqs & Hin).
    apply list_elem_of_lookup_1 in Hqs as [b Hb]. exists b.
    apply elem_of_starts_of. rewrite starts_of_batches_log.
    rewrite decide_True, Nat.sub_0_r, Hb by lia. simpl.
    apply elem_of_fetched_upfront. split; [done|].
    by apply skipped_upfront_false.
Qed.

Lemma upfront_fetch_iff_eligible_witness :
  let H := Demo.host false None Demo.catalog in
  ∃ b, EvFetchStart b Demo.pages
       ∈ (fetchWPGQLContentNodesByContentType Demo.in_order).1.
Proof.
  intros H.
  apply (proj2 (upfront_fetch_iff_eligible Demo.in_order Demo.pages)).
  - vm_compute. discriminate.
  - eexists. vm_compute. reflexivity.
  - right. right. left.
  - split; [reflexivity|]. split; [reflexivity|]. vm_compute. discriminate.
Defined.

(** C2, as it was stated, fails: with the override of the batch size set
    to 0 the run resolves, and the eligible entry of the posts gets no
    upfront fetch: nothing is fetched at all.  And with a batch size of one
    and an entry whose fetch rejects in the first batch, the eligible entry
    of the second batch gets no upfront fetch either. *)
Lemma eligible_entry_not_fetched_counterexample :
  (let H := Demo.host false (Some 0%Z) Demo.catalog in
   Demo.posts ∈ nodeQueries
   ∧ eligible Demo.posts
   ∧ fetchWPGQLContentNodesByContentType Demo.in_order = ([], Ok [])
   ∧ ¬ ∃ b, EvFetchStart b Demo.posts
            ∈ (fetchWPGQLContentNodesByContentType Demo.in_order).1)
  ∧ (let H := Demo.host false (Some 1%Z) [Demo.events; Demo.posts] in
     Demo.posts ∈ nodeQueries
     ∧ eligible Demo.posts
     ∧ fetchWPGQLContentNodesByContentType Demo.in_order
       = ([EvFetchStart 0 Demo.events; EvFetchRejected 0 Demo.events], Err)
     ∧ ¬ ∃ b, EvFetchStart b Demo.posts
              ∈ (fetchWPGQLContentNodesByContentType Demo.in_order).1).
Proof.
  split; intros H.
  - split_and!.
    + apply list_elem_of_here.
    + split_and!; [reflexivity..|discriminate].
    + reflexivity.
    + intros [b Hin]. by apply elem_of_nil in Hin.
  - assert (Hrun : fetchWPGQLContentNodesByContentType Demo.in_order
                   = ([EvFetchStart 0 Demo.events;
                       EvFetchRejected 0 Demo.events], Err))
      by (vm_compute; reflexivity).
    split_and!.
    + apply list_elem_of_further, list_elem_of_here.
    + split_and!; [reflexivity..|discriminate].
    + exact Hrun.
    + intros [b Hin]. rewrite Hrun in Hin. simpl in Hin.
      rewrite !elem_of_cons, elem_of_nil in Hin.
      destruct Hin as [Hin|[Hin|[]]]; discriminate.
Qed.

(** C7: a content type whose list queries yield no record makes
    [fetchWPGQLContentNodes] resolve to false; every group in the output of
    a run has at least one record and comes from another entry; and the
    empty type causes no error: the run resolves as soon as the fetches of
    the other entries do. *)
Theorem empty_type_yields_no_group `{Collaborators} order q :
  Forall (λ nodeListQuery,
            paginatedWpNodeFetch (page_args q nodeListQuery) = Ok [])
         (nodeListQueries q) →
  fetchWPGQLContentNodes q = Ok None
  ∧ (∀ groups g,
       (fetchWPGQLContentNodesByContentType order).2 = Ok groups →
       g ∈ groups →
       allNodesOfContentType g ≠ []
       ∧ ∃ q', q' ≠ q ∧ q' ∈ nodeQueries ∧ eligible q'
               ∧ fetchWPGQLContentNodes q' = Ok (Some g))
  ∧ ((∀ q', q' ∈ nodeQueries → q' ≠ q → fetchWPGQLContentNodes q' ≠ Err) →
     ∃ groups, (fetchWPGQLContentNodesByContentType order).2 = Ok groups).
Proof.
  intros Hempty.
  assert (Hq : fetchWPGQLContentNodes q = Ok None).
  { unfold fetchWPGQLContentNodes.
    by rewrite (fetch_list_queries_empty q _ Hempty). }
  split_and!; [done| |].
  - intros groups g Hok Hg.
    destruct (fetch_resolved_log order groups Hok) as [_ ->].
    apply list_elem_of_omap in Hg as (q' & Hq' & Hg%group_of_Some).
    split; [by eapply fetchWPGQLContentNodes_group|].
    exists q'. apply batches_completed_elem in Hq' as (queries & Hqs & Hq').
    destruct (fetched_is_eligible q' queries Hqs Hq') as [Hin Hel].
    split_and!; try done. intros ->. congruence.
  - intros Hothers. unfold fetchWPGQLContentNodesByContentType.
    destruct (fetch_batches_spec order 0
                (chunk getContentTypeQueryInfos chunkSize) [])
      as (Hlog & _).
    rewrite Hlog; [by eexists|].
    apply Forall_forall. intros q' (queries & Hq' & Hqs)%list_elem_of_bind.
    destruct (fetched_is_eligible q' queries Hqs Hq') as [Hin _].
    intros Herr. apply (Hothers q' Hin); [|done]. intros ->. congruence.
Qed.

Lemma empty_type_yields_no_group_witness :
  let H := Demo.host false None Demo.catalog in
  fetchWPGQLContentNodes Demo.tags = Ok None
  ∧ (∀ groups g,
       (fetchWPGQLContentNodesByContentType Demo.in_order).2 = Ok groups →
       g ∈ groups →
       allNodesOfContentType g ≠ []
       ∧ ∃ q', q' ≠ Demo.tags ∧ q' ∈ nodeQueries ∧ eligible q'
               ∧ fetchWPGQLContentNodes q' = Ok (Some g)).
Proof.
  intros H.
  assert (Hempty : Forall (λ nodeListQuery,
                     paginatedWpNodeFetch (page_args Demo.tags nodeListQuery)
                     = Ok [])
                     (nodeListQueries Demo.tags))
    by (repeat constructor).
  destruct (empty_type_yields_no_group Demo.in_order Demo.tags Hempty)
    as (H1 & H2 & _).
  exact (conj H1 H2).
Defined.

(** C9 (as amended): the entries that are not excluded (lazy and media-item
    entries among them) are cut, in catalog order, into consecutive batches
    of the size the environment gives, 50 when it gives none, the size being
    at least one.  In every run, a batch that is started starts the fetches
    of all its eligible entries, in catalog order; and when a fetch of a
    later batch starts, every fetch of the earlier batches has been started
    and has resolved.  In a run in which no fetch rejects every batch is
    started and every fetch that was started resolves in its batch. *)
Theorem batches_of_selected_entries `{Collaborators} order :
  (1 ≤ chunkSize)%Z →
  let n := Z.to_nat chunkSize in
  let l := (fetchWPGQLContentNodesByContentType order).1 in
  let batch b := take n (drop (b * n) getContentTypeQueryInfos) in
  (GATSBY_CONCURRENT_DOWNLOAD = None → n = 50)
  ∧ (∀ z, GATSBY_CONCURRENT_DOWNLOAD = Some z → n = Z.to_nat z)
  ∧ (∀ b q, EvFetchStart b q ∈ l → starts_of b l = fetched_upfront (batch b))
  ∧ (∀ l1 l2 b' q',
       l = l1 ++ EvFetchStart b' q' :: l2 →
       ∀ b, b < b' →
            starts_of b l1 = fetched_upfront (batch b)
            ∧ dones_of b l1 ≡ₚ starts_of b l1)
  ∧ (∀ groups,
       (fetchWPGQLContentNodesByContentType order).2 = Ok groups →
       ∀ b, starts_of b l = fetched_upfront (batch b)
            ∧ dones_of b l ≡ₚ starts_of b l).
Proof.
  intros Hsize n l batch.
  destruct (fetch_started_batches order Hsize) as (k & Hstarts & Hdones & Hall).
  fold n in Hstarts, Hdones. fold l in Hstarts, Hdones.
  assert (Hstarted : ∀ b q, EvFetchStart b q ∈ l → b < k).
  { intros b q Hin%elem_of_starts_of. rewrite Hstarts in Hin.
    case_decide; [done|]. by apply elem_of_nil in Hin. }
  split_and!.
  - intros Henv. subst n. unfold chunkSize. by rewrite Henv.
  - intros z Henv. subst n. unfold chunkSize. by rewrite Henv.
  - intros b q Hin. rewrite Hstarts.
    by rewrite decide_True by (by eapply Hstarted).
  - intros l1 l2 b' q' Hsplit b Hb.
    assert (Hb' : b' < k).
    { apply (Hstarted b' q'). rewrite Hsplit, elem_of_app. right. by left. }
    assert (Hlater : Forall (λ e, b < batch_no e) l2).
    { pose proof (fetch_sorted order) as Hsorted. fold l in Hsorted.
      rewrite Hsplit in Hsorted.
      apply StronglySorted_app in Hsorted as (_ & _ & Hsorted).
      apply StronglySorted_inv in Hsorted as [_ Hafter].
      eapply Forall_impl; [exact Hafter|]. simpl. lia. }
    assert (Hs : starts_of b l1 = starts_of b l).
    { rewrite Hsplit, starts_of_app.
      change (EvFetchStart b' q' :: l2) with ([EvFetchStart b' q'] ++ l2).
      rewrite starts_of_app, (starts_of_later b l2 Hlater).
      unfold starts_of at 3. simpl. rewrite decide_False by lia.
      by rewrite !app_nil_r. }
    assert (Hd : dones_of b l1 = dones_of b l).
    { rewrite Hsplit, dones_of_app.
      change (EvFetchStart b' q' :: l2) with ([EvFetchStart b' q'] ++ l2).
      rewrite dones_of_app, (dones_of_later b l2 Hlater).
      by rewrite !app_nil_r. }
    rewrite Hd, Hs, Hstarts, decide_True by lia.
    split; [done|]. apply Hdones. lia.
  - intros groups Hok b.
    destruct (fetch_resolved_log order groups Hok) as [Hlog _].
    fold l in Hlog. split.
    + rewrite Hlog, starts_of_batches_log.
      rewrite decide_True, Nat.sub_0_r by lia.
      by rewrite chunk_default_lookup.
    + rewrite Hlog, dones_of_batches_log, starts_of_batches_log.
      rewrite decide_True by lia. apply completed_batch_perm.
Qed.

Lemma batches_of_selected_entries_witness :
  let H := Demo.host false (Some 2%Z)
             [Demo.posts; Demo.comments; Demo.pages; Demo.tags] in
  let l := (fetchWPGQLContentNodesByContentType Demo.lifo_batches).1 in
  (∀ b q, EvFetchStart b q ∈ l →
          starts_of b l
          = fetched_upfront (take 2 (drop (b * 2) getContentTypeQueryInfos)))
  ∧ (∀ l1 l2 b' q',
       l = l1 ++ EvFetchStart b' q' :: l2 →
       ∀ b, b < b' →
            starts_of b l1
            = fetched_upfront (take 2 (drop (b * 2) getContentTypeQueryInfos))
            ∧ dones_of b l1 ≡ₚ starts_of b l1)
  ∧ starts_of 0 l = [Demo.posts]
  ∧ starts_of 1 l = [Demo.pages; Demo.tags].
Proof.
  intros H l.
  assert (Hsize : (1 ≤ chunkSize)%Z) by (vm_compute; discriminate).
  assert (Hok : (fetchWPGQLContentNodesByContentType Demo.lifo_batches).2
                = Ok [Demo.posts_group; Demo.pages_group])
    by (vm_compute; reflexivity).
  destruct (batches_of_selected_entries Demo.lifo_batches Hsize)
    as (_ & _ & H3 & H4 & H5).
  split_and!; [exact H3|exact H4|..].
  - by destruct (H5 _ Hok 0) as [-> _].
  - by destruct (H5 _ Hok 1) as [-> _].
Defined.

(** C9, as it was stated, fails: with a batch size of two and a lazy entry
    between two eligible ones, the first batch of the code fetches one
    entry, the second two; consecutive pairs of the eligible entries would
    be two entries and then one. *)
Lemma batches_of_eligible_counterexample :
  let H := Demo.host false (Some 2%Z)
             [Demo.posts; Demo.comments; Demo.pages; Demo.tags] in
  let l := (fetchWPGQLContentNodesByContentType Demo.in_order).1 in
  chunk (fetched_upfront getContentTypeQueryInfos) chunkSize
  = [[Demo.posts; Demo.pages]; [Demo.tags]]
  ∧ starts_of 0 l = [Demo.posts]
  ∧ starts_of 1 l = [Demo.pages; Demo.tags]
  ∧ starts_of 0 l ≠ [Demo.posts; Demo.pages].
Proof.
  split_and!; [vm_compute; reflexivity..|vm_compute; discriminate].
Qed.

(** ** The whole run *)

Section Run.
Context `{Collaborators}.

Lemma fetch_stage order :
  Forall (λ e, stage e = 0) (fetchWPGQLContentNodesByContentType order).1.
Proof.
  unfold fetchWPGQLContentNodesByContentType.
  by destruct (fetch_batches_spec order 0
                 (chunk getContentTypeQueryInfos chunkSize) [])
    as (_ & _ & ? & _).
Qed.



End Run.



(** * Further properties *)

(** ** What the reference scan finds *)

Lemma string_app_cons (c : ascii) (s1 s2 : string) :
  String c s1 +:+ s2 = String c (s1 +:+ s2).
Proof. done. Qed.

Lemma string_app_assoc (s1 s2 s3 : string) :
  (s1 +:+ s2) +:+ s3 = s1 +:+ s2 +:+ s3.
Proof.
  induction s1 as [|c s1 IH]; [done|]. by rewrite !string_app_cons, IH.
Qed.

Lemma strip_prefix_app p s r : strip_prefix p s = Some r → s = p +:+ r.
Proof.
  revert s. induction p as [|a p IH]; intros s Hs; simpl in Hs.
  - by injection Hs as ->.
  - destruct s as [|b s]; [done|].
    destruct (Ascii.eqb a b) eqn:Hab; [|done].
    apply Ascii.eqb_eq in Hab as ->. rewrite ?string_app_cons; simpl. by rewrite (IH _ Hs).
Qed.

Lemma strip_prefix_complete p s : strip_prefix p (p +:+ s) = Some s.
Proof.
  induction p as [|a p IH]; [done|]. rewrite ?string_app_cons; simpl. by rewrite Ascii.eqb_refl.
Qed.

Lemma span_unquoted_spec s :
  s = (span_unquoted s).1 +:+ (span_unquoted s).2
  ∧ unquoted (span_unquoted s).1 = true.
Proof.
  induction s as [|c s [IH1 IH2]]; [done|]. simpl.
  destruct (Ascii.eqb c dquote) eqn:Hc; [done|].
  destruct (span_unquoted s) as [cap rest]. simpl in *.
  rewrite Hc, IH2. rewrite ?string_app_cons; simpl. by rewrite <-IH1.
Qed.

Lemma span_unquoted_app cap rest :
  unquoted cap = true →
  span_unquoted (cap +:+ String dquote rest) = (cap, String dquote rest).
Proof.
  induction cap as [|c cap IH]; intros Hcap.
  - done.
  - simpl in Hcap. apply andb_true_iff in Hcap as [Hc Hcap].
    apply negb_true_iff in Hc. rewrite ?string_app_cons; simpl. by rewrite Hc, IH.
Qed.

Lemma match_here_sound s cap rest :
  match_here s = Some (cap, rest) →
  s = id_open +:+ cap +:+ id_close +:+ rest ∧ unquoted cap = true.
Proof.
  unfold match_here. intros Hm.
  destruct (strip_prefix id_open s) as [s1|] eqn:H1; [|done].
  destruct (span_unquoted_spec s1) as [Hs1 Hcap].
  destruct (span_unquoted s1) as [cap' s2]. cbn [fst snd] in *.
  destruct (strip_prefix id_close s2) as [s3|] eqn:H3; [|done].
  injection Hm as -> ->.
  apply strip_prefix_app in H1, H3. by subst.
Qed.

Lemma match_here_complete cap rest :
  unquoted cap = true →
  match_here (id_open +:+ cap +:+ id_close +:+ rest) = Some (cap, rest).
Proof.
  intros Hcap. unfold match_here. rewrite strip_prefix_complete.
  change (id_close +:+ rest)
    with (String dquote ("," +:+ dq +:+ "sourceUrl" +:+ dq +:+ rest)).
  rewrite span_unquoted_app by done.
  change (String dquote ("," +:+ dq +:+ "sourceUrl" +:+ dq +:+ rest))
    with (id_close +:+ rest).
  by rewrite strip_prefix_complete.
Qed.

Lemma match_here_unquoted_head c s :
  c ≠ dquote → match_here (String c s) = None.
Proof.
  intros Hc. unfold match_here.
  change (strip_prefix id_open (String c s))
    with (if Ascii.eqb dquote c
          then strip_prefix ("id" +:+ dq +:+ ":" +:+ dq) s else None).
  apply Ascii.eqb_neq in Hc. rewrite Ascii.eqb_sym in Hc. by rewrite Hc.
Qed.

(** X1: every id the scan captures stands in the serialized record between
    the quoted key id with its colon and opening quote and the closing
    quote, comma and quoted key sourceUrl, and holds no double quote. *)
Theorem execall_ids_sound (s id : string) :
  id ∈ execall_ids s →
  unquoted id = true
  ∧ ∃ before after, s = before +:+ id_open +:+ id +:+ id_close +:+ after.
Proof.
  unfold execall_ids. generalize (S (String.length s)) as fuel.
  intros fuel. revert s. induction fuel as [|fuel IH]; intros s Hin.
  { by apply elem_of_nil in Hin. }
  rewrite execall_from_S in Hin.
  destruct (match_here s) as [[cap rest]|] eqn:Hm.
  - apply match_here_sound in Hm as [Hs Hcap].
    apply elem_of_cons in Hin as [->|Hin].
    + split; [done|]. by exists EmptyString, rest.
    + destruct (IH _ Hin) as (Hid & before & after & Hrest).
      split; [done|].
      exists (id_open +:+ cap +:+ id_close +:+ before), after.
      rewrite Hs, Hrest. by rewrite !string_app_assoc.
  - destruct s as [|c s]; [by apply elem_of_nil in Hin|].
    destruct (IH _ Hin) as (Hid & before & after & Hs).
    split; [done|]. exists (String c before), after. rewrite ?string_app_cons; simpl. by rewrite Hs.
Qed.

Lemma execall_ids_sound_witness :
  let s := Demo.quoted "id" +:+ ":" +:+ Demo.quoted "m1" +:+ ","
           +:+ Demo.quoted "sourceUrl" in
  unquoted "m1" = true
  ∧ ∃ before after, s = before +:+ id_open +:+ "m1" +:+ id_close +:+ after.
Proof.
  intros s. apply (execall_ids_sound s "m1").
  vm_compute. apply elem_of_cons. by left.
Defined.

(** X2: a text that reaches its first double quote at an embedded
    reference yields the id of that reference first, and then the matches of
    what follows the reference. *)
Theorem execall_ids_first_match (before id after : string) :
  unquoted before = true → unquoted id = true →
  execall_ids (before +:+ id_open +:+ id +:+ id_close +:+ after)
  = id :: execall_ids after.
Proof.
  intros Hbefore Hid. induction before as [|c before IH].
  - apply execall_ids_match. by apply match_here_complete.
  - simpl in Hbefore. apply andb_true_iff in Hbefore as [Hc Hbefore].
    apply negb_true_iff, Ascii.eqb_neq in Hc.
    rewrite ?string_app_cons; simpl. rewrite execall_ids_skip by (by apply match_here_unquoted_head).
    by apply IH.
Qed.

Lemma execall_ids_first_match_witness :
  execall_ids ("{" +:+ id_open +:+ "m1" +:+ id_close +:+ ":1}")
  = "m1" :: execall_ids ":1}".
Proof. apply (execall_ids_first_match "{" "m1" ":1}"); reflexivity. Defined.

(** ** The set of referenced ids after the queue drained *)

Section ReferencedIds.
Context `{Collaborators}.

Lemma elem_of_scan_references g record referenced x :
  x ∈ scan_references g record referenced
  ↔ x ∈ referenced
    ∨ (mediaItemLazyNodes = false ∧ plural g ≠ "mediaItems"
       ∧ x ∈ execall_ids (stringify record) ∧ VStr x ≠ get record "id").
Proof.
  destruct mediaItemLazyNodes eqn:Hl.
  { rewrite scan_references_lazy by done. intuition congruence. }
  destruct (decide (plural g = "mediaItems")) as [Hg|Hg].
  { rewrite scan_references_media by done. intuition congruence. }
  rewrite scan_references_eager by done.
  rewrite elem_of_foldl_set_add, elem_of_matchedIds. tauto.
Qed.

Lemma elem_of_foldl_scan (ts : list Task) referenced x :
  x ∈ foldl (λ r t, scan_references (wpgqlNodesGroup t)
                      (derive_path (node t)) r) referenced ts
  ↔ x ∈ referenced
    ∨ (mediaItemLazyNodes = false
       ∧ ∃ t, t ∈ ts ∧ plural (wpgqlNodesGroup t) ≠ "mediaItems"
              ∧ x ∈ execall_ids (stringify (derive_path (node t)))
              ∧ VStr x ≠ get (derive_path (node t)) "id").
Proof.
  revert referenced. induction ts as [|t ts IH]; intros referenced; simpl.
  - split; [by left|]. intros [?|(_ & t & []%elem_of_nil & _)]; done.
  - rewrite IH, elem_of_scan_references. split.
    + intros [[?|(Hl & Hg & Hx & Hid)]|(Hl & t' & Ht' & Hrest)].
      * by left.
      * right. split; [done|]. exists t. split; [by left|done].
      * right. split; [done|]. exists t'. split; [by right|done].
    + intros [?|(Hl & t' & [->|Ht']%elem_of_cons & Hrest)].
      * by left; left.
      * left. right. by split.
      * right. split; [done|]. by exists t'.
Qed.

End ReferencedIds.

(** X3: the set of referenced media ids does not depend on the interleaving
    of the units: it is, in insertion order, what a scan of the records one
    after the other in queue order builds, and it holds no id twice. *)
Theorem referenced_ids_schedule_independent `{Collaborators} sched groups :
  referencedMediaItemNodeIds
    (store (onIdle sched (tasks_of groups) empty_store))
  = foldl (λ r t, scan_references (wpgqlNodesGroup t)
                    (derive_path (node t)) r) [] (tasks_of groups)
  ∧ NoDup (referencedMediaItemNodeIds
             (store (onIdle sched (tasks_of groups) empty_store))).
Proof.
  split; [apply onIdle_referenced|].
  apply onIdle_NoDup_referenced. apply NoDup_nil_2.
Qed.

(** X4: an id is in the set of referenced media ids after the queue drained
    exactly when the MediaItem setting is eager and some record of a group
    other than the media group has, in its serialization, a match of the
    pattern with that id, the id not being the record's own. *)
Theorem referenced_id_iff_embedded `{Collaborators} sched groups x :
  x ∈ referencedMediaItemNodeIds
        (store (onIdle sched (tasks_of groups) empty_store))
  ↔ mediaItemLazyNodes = false
    ∧ ∃ t, t ∈ tasks_of groups
           ∧ plural (wpgqlNodesGroup t) ≠ "mediaItems"
           ∧ x ∈ execall_ids (stringify (derive_path (node t)))
           ∧ VStr x ≠ get (derive_path (node t)) "id".
Proof.
  rewrite onIdle_referenced, elem_of_foldl_scan. simpl.
  rewrite elem_of_nil. tauto.
Qed.

(** ** The queue and the ledger *)

(** X5: at no point of a run of the queue are more than two units in
    flight. *)
Theorem at_most_two_in_flight `{Collaborators} sched fuel ts st :
  length (inflight (run sched 0 fuel (initial_queue ts st))) ≤ 2.
Proof. apply run_concurrency. simpl. unfold concurrency. lia. Qed.

Section LedgerExtras.
Context `{Collaborators}.

Lemma unit_side_effects_created t : unit_side_effects t ⊆+ unit_created t.
Proof.
  unfold unit_side_effects, unit_created, cont_side_effects, cont_created,
    and_then.
  destruct (start_cont t) as [record rn [|r]|record rn]; simpl.
  - done.
  - rewrite !app_nil_r. apply submseteq_inserts_r. done.
  - apply submseteq_nil_l.
Qed.

Lemma creates_of_app u l1 l2 :
  creates_of u (l1 ++ l2) = creates_of u l1 ++ creates_of u l2.
Proof. apply omap_app. Qed.

Lemma creates_of_events_of u l : creates_of u (events_of u l) = creates_of u l.
Proof.
  induction l as [|e l IH]; [done|].
  change (e :: l) with ([e] ++ l).
  rewrite events_of_app, !creates_of_app, IH. f_equal.
  unfold events_of. rewrite filter_cons, filter_nil.
  destruct (decide (unit_of e = Some u)) as [He|He]; [done|].
  destruct e; try done. unfold creates_of. simpl in *.
  rewrite decide_False; [done|congruence].
Qed.

Lemma creates_of_unit_events u t :
  creates_of u (unit_events u t)
  = if hook_rejects t then []
    else [build_remoteNode (derive_path (node t))].
Proof.
  unfold unit_events, cont_events, and_then, start_event, hook_rejects,
    start_cont, creates_of.
  destruct (hook_of _) as [hook|]; [destruct (hook _) as [|r]|]; simpl;
    try destruct (createNode _); simpl; by rewrite ?decide_True.
Qed.

Lemma unit_events_hook_rejected u t :
  hook_rejects t = true →
  unit_events u t
  = [EvBeforeChangeNode u
       (hook_args (derive_path (node t))
          (build_remoteNode (derive_path (node t))));
     EvUnitRejected u]
  ∧ unit_created t = [].
Proof.
  unfold unit_events, unit_created, cont_created, cont_events, and_then,
    start_event, hook_rejects, start_cont.
  destruct (hook_of _) as [hook|]; [destruct (hook _) as [|r]|]; done.
Qed.

End LedgerExtras.

(** X6: every id a hook reported is in the ledger as well: the side-effect
    list is, with multiplicity, part of the ledger after any interleaving. *)
Theorem side_effects_in_ledger `{Collaborators} sched groups :
  totalSideEffectNodes (store (onIdle sched (tasks_of groups) empty_store))
  ⊆+ createdNodeIds (store (onIdle sched (tasks_of groups) empty_store)).
Proof.
  rewrite onIdle_created, onIdle_side_effects. simpl.
  induction (tasks_of groups) as [|t ts IH]; [done|].
  rewrite !bind_cons. apply submseteq_app; [|done].
  apply unit_side_effects_created.
Qed.

(** X7: when no record has a hook and every commit resolves, the ledger is
    the ids of the records, each once, in some order, and the side-effect
    list stays empty. *)
Theorem ledger_without_hooks `{Collaborators} sched groups :
  Forall (λ t, hook_of (derive_path (node t)) = None
               ∧ createNode (build_remoteNode (derive_path (node t))) = true)
         (tasks_of groups) →
  createdNodeIds (store (onIdle sched (tasks_of groups) empty_store))
  ≡ₚ map (λ t, get (node t) "id") (tasks_of groups)
  ∧ totalSideEffectNodes (store (onIdle sched (tasks_of groups) empty_store))
    = [].
Proof.
  intros Hall.
  assert (Hunits : (tasks_of groups ≫= unit_created
                    = map (λ t, get (node t) "id") (tasks_of groups))
                   ∧ tasks_of groups ≫= unit_side_effects = []).
  { induction Hall as [|t ts [Hhook Hc] _ [IH1 IH2]]; [done|].
    rewrite !bind_cons, IH1, IH2.
    unfold unit_created, unit_side_effects, cont_created, cont_side_effects,
      and_then, start_cont.
    rewrite Hhook. simpl. rewrite Hc. simpl.
    by rewrite (derive_path_get (node t) "id"). }
  destruct Hunits as [Hcreated Hside]. split.
  - by rewrite onIdle_created, Hcreated.
  - apply Permutation_nil. by rewrite onIdle_side_effects, Hside.
Qed.

Lemma ledger_without_hooks_witness :
  let H := Demo.host false None Demo.catalog in
  let groups := [Demo.tags_group] in
  createdNodeIds (store (onIdle Demo.lifo (tasks_of groups) empty_store))
  ≡ₚ [VStr "t1"]
  ∧ totalSideEffectNodes
      (store (onIdle Demo.lifo (tasks_of groups) empty_store)) = [].
Proof.
  intros H groups. apply (ledger_without_hooks Demo.lifo groups).
  repeat constructor.
Defined.

(** X8: a unit whose hook rejects never calls [actions.createNode], never
    pushes the id of its record and adds nothing to the ledger; its promise
    rejects, and the other units contribute as they would without it. *)
Theorem hook_rejection_skips_commit `{Collaborators} sched groups u t :
  tasks_of groups !! u = Some t →
  hook_rejects t = true →
  let st := store (onIdle sched (tasks_of groups) empty_store) in
  (∀ rn, EvCreateNode u rn ∉ log st)
  ∧ (∀ id, EvCreated u id ∉ log st)
  ∧ EvUnitRejected u ∈ log st
  ∧ createdNodeIds st ≡ₚ delete u (tasks_of groups) ≫= unit_created.
Proof.
  intros Ht Hrej st.
  destruct (unit_events_hook_rejected u t Hrej) as [Hev Hcreated].
  split_and!.
  - intros rn. subst st. rewrite (unit_event_logged sched groups u t) by done.
    rewrite unit_events_create, Hrej. by intros [? _].
  - intros id. subst st. rewrite (unit_event_logged sched groups u t) by done.
    rewrite Hev, !elem_of_cons, elem_of_nil. by intros [|[|]].
  - subst st. rewrite (unit_event_logged sched groups u t) by done.
    rewrite unit_events_rejected. by left.
  - subst st. rewrite onIdle_created. simpl.
    by rewrite (bind_delete unit_created _ u t Ht), Hcreated.
Qed.

Lemma hook_rejection_skips_commit_witness :
  let H := Demo.host false None Demo.catalog in
  let groups := [Demo.users_group] in
  let st := store (onIdle Demo.lifo (tasks_of groups) empty_store) in
  (∀ rn, EvCreateNode 0 rn ∉ log st)
  ∧ (∀ id, EvCreated 0 id ∉ log st)
  ∧ EvUnitRejected 0 ∈ log st
  ∧ createdNodeIds st ≡ₚ delete 0 (tasks_of groups) ≫= unit_created.
Proof.
  intros H groups st.
  apply (hook_rejection_skips_commit Demo.lifo groups 0
           (Demo.task Demo.users_group Demo.user1)); reflexivity.
Defined.

(** X9: when the hook of a record resolves and the commit of its node
    rejects, the ids the hook reported stay in the ledger, the id of the
    record is not pushed, and the promise of the unit rejects. *)
Theorem commit_rejection_keeps_hook_ids `{Collaborators} sched groups u t hook r :
  tasks_of groups !! u = Some t →
  hook_of (derive_path (node t)) = Some hook →
  hook (hook_args (derive_path (node t))
          (build_remoteNode (derive_path (node t)))) = HookResolved r →
  createNode (build_remoteNode (derive_path (node t))) = false →
  let st := store (onIdle sched (tasks_of groups) empty_store) in
  createdNodeIds st
  ≡ₚ default [] (additionalNodeIds_of r)
     ++ (delete u (tasks_of groups) ≫= unit_created)
  ∧ EvCreateNode u (build_remoteNode (derive_path (node t))) ∈ log st
  ∧ (∀ id, EvCreated u id ∉ log st)
  ∧ EvUnitRejected u ∈ log st.
Proof.
  intros Ht Hhook Hr Hc st.
  destruct (unit_created_hook t hook _ Hhook Hr) as (Hcreated & _ & Hrej).
  rewrite Hc, app_nil_r in Hcreated. split_and!.
  - subst st. rewrite onIdle_created. simpl.
    by rewrite (bind_delete unit_created _ u t Ht), Hcreated.
  - subst st. rewrite (unit_event_logged sched groups u t) by done.
    by apply unit_events_create.
  - intros id Hin. subst st.
    apply list_elem_of_split in Hin as (l1 & l2 & Hlog).
    destruct (created_after_createNode sched groups u t l1 l2 id Ht Hlog)
      as (_ & Hc' & _).
    congruence.
  - subst st. rewrite (unit_event_logged sched groups u t) by done.
    rewrite unit_events_rejected. by right.
Qed.

Lemma commit_rejection_keeps_hook_ids_witness :
  let H := Demo.strict_host in
  let groups := [Demo.posts_group] in
  let st := store (onIdle Demo.lifo (tasks_of groups) empty_store) in
  createdNodeIds st
  ≡ₚ [VStr "a"; VStr "b"] ++ (delete 1 (tasks_of groups) ≫= unit_created)
  ∧ (∀ id, EvCreated 1 id ∉ log st).
Proof.
  intros H groups st.
  assert (Hhook : hook_of (derive_path Demo.post2)
                  = Some (λ _, HookResolved
                                 (HObject (Some [VStr "a"; VStr "b"]))))
    by (vm_compute; reflexivity).
  assert (Hc : createNode (build_remoteNode (derive_path Demo.post2)) = false)
    by (vm_compute; reflexivity).
  destruct (commit_rejection_keeps_hook_ids Demo.lifo groups 1
              (Demo.task Demo.posts_group Demo.post2) _
              (HObject (Some [VStr "a"; VStr "b"]))
              eq_refl Hhook eq_refl Hc) as (H1 & _ & H3 & _).
  exact (conj H1 H3).
Defined.

(** X10: in every interleaving [actions.createNode] is called exactly once
    for a record whose hook, if it has one, does not reject, with the node
    built from the record, and never for any other unit. *)
Theorem node_committed_once `{Collaborators} sched groups u :
  creates_of u (log (store (onIdle sched (tasks_of groups) empty_store)))
  = match tasks_of groups !! u with
    | Some t =>
        if hook_rejects t then []
        else [build_remoteNode (derive_path (node t))]
    | None => []
    end.
Proof.
  rewrite <-creates_of_events_of, materialized_events.
  destruct (tasks_of groups !! u) as [t|]; [|done]. simpl.
  apply creates_of_unit_events.
Qed.

(** X11: the id a unit pushes on the ledger for its record is the id of the
    node it committed. *)
Theorem pushed_id_is_committed_id `{Collaborators} sched groups u id rn :
  let st := store (onIdle sched (tasks_of groups) empty_store) in
  EvCreated u id ∈ log st → EvCreateNode u rn ∈ log st →
  id = get rn "id".
Proof.
  intros st Hid Hrn.
  destruct (tasks_of groups !! u) as [t|] eqn:Ht.
  - apply list_elem_of_split in Hid as (l1 & l2 & Hlog).
    destruct (created_after_createNode sched groups u t l1 l2 id Ht Hlog)
      as (-> & _ & _).
    subst st. rewrite (unit_event_logged sched groups u t) in Hrn by done.
    apply unit_events_create in Hrn as [_ ->].
    rewrite build_remoteNode_get by done. by rewrite derive_path_get.
  - pose proof (materialized_events sched groups u) as Hev.
    rewrite Ht in Hev. simpl in Hev.
    assert (Hin : EvCreated u id ∈ events_of u (log st))
      by (by apply elem_of_events_of).
    subst st. rewrite Hev in Hin. by apply elem_of_nil in Hin.
Qed.

Lemma pushed_id_is_committed_id_witness :
  let H := Demo.host false None Demo.catalog in
  let groups := [Demo.tags_group] in
  let rn := build_remoteNode (derive_path Demo.tag1) in
  VStr "t1" = get rn "id".
Proof.
  intros H groups rn.
  apply (pushed_id_is_committed_id Demo.lifo groups 0 (VStr "t1") rn).
  - apply (unit_event_logged Demo.lifo groups 0
             (Demo.task Demo.tags_group Demo.tag1)); [reflexivity..|].
    apply (unit_events_created_in 0 (Demo.task Demo.tags_group Demo.tag1));
      reflexivity.
  - apply (unit_event_logged Demo.lifo groups 0
             (Demo.task Demo.tags_group Demo.tag1)); [reflexivity..|].
    apply unit_events_create. split; reflexivity.
Defined.

(** ** The fetch of one content type *)

Section FetchExtras.
Context `{Collaborators}.

Lemma fetch_list_queries_resolved q queries pages acc :
  Forall2 (λ nodeListQuery records,
             paginatedWpNodeFetch (page_args q nodeListQuery) = Ok records)
          queries pages →
  fetch_list_queries q queries acc = Ok (acc ++ concat pages).
Proof.
  intros Hall. revert acc.
  induction Hall as [|query records queries pages Hq _ IH]; intros acc; simpl.
  - by rewrite app_nil_r.
  - by rewrite Hq, IH, app_assoc.
Qed.

Lemma fetch_list_queries_rejected q queries acc :
  fetch_list_queries q queries acc = Err
  ↔ ∃ nodeListQuery,
      nodeListQuery ∈ queries
      ∧ paginatedWpNodeFetch (page_args q nodeListQuery) = Err.
Proof.
  revert acc. induction queries as [|query queries IH]; intros acc; simpl.
  - split; [done|]. by intros (? & []%elem_of_nil & _).
  - destruct (paginatedWpNodeFetch (page_args q query)) as [records|] eqn:Hq.
    + rewrite IH. split.
      * intros (x & Hx & Herr). exists x. split; [by right|done].
      * intros (x & [->|Hx]%elem_of_cons & Herr); [congruence|by exists x].
    + split; [|done]. intros _. exists query. split; [by left|done].
Qed.

Lemma fetch_Err_dec q :
  fetchWPGQLContentNodes q = Err ∨ fetchWPGQLContentNodes q ≠ Err.
Proof. destruct (fetchWPGQLContentNodes q); [by right|by left]. Qed.

Lemma rejecting_entry_or_none (queries : list QueryInfo) :
  Forall (λ q, fetchWPGQLContentNodes q ≠ Err) queries
  ∨ ∃ q, q ∈ queries ∧ fetchWPGQLContentNodes q = Err.
Proof.
  induction queries as [|q queries [IH|(q' & Hq' & Herr)]].
  - left. constructor.
  - destruct (fetch_Err_dec q) as [Herr|Hok].
    + right. exists q. split; [by left|done].
    + left. by constructor.
  - right. exists q'. split; [by right|done].
Qed.

Lemma batches_completed_perm order b chunks :
  batches_completed order b chunks ≡ₚ fetched_upfront (concat chunks).
Proof.
  revert b. induction chunks as [|queries chunks IH]; intros b; [done|].
  cbn [batches_completed concat]. unfold fetched_upfront in *.
  rewrite List.filter_app.
  rewrite <-IH. apply Permutation_app; [|done]. apply completed_batch_perm.
Qed.

Lemma elem_of_bind_fetched_upfront q (chunks : list (list QueryInfo)) :
  q ∈ chunks ≫= fetched_upfront ↔ q ∈ fetched_upfront (concat chunks).
Proof.
  rewrite list_elem_of_bind, elem_of_fetched_upfront, elem_of_concat.
  split.
  - intros (queries & [Hq Hskip]%elem_of_fetched_upfront & Hqs).
    split; [by exists queries|done].
  - intros [(queries & Hqs & Hq) Hskip]. exists queries.
    by rewrite elem_of_fetched_upfront.
Qed.

(** A list is cut in one way only at an element that cannot be in its
    first part. *)
Lemma split_after_prefix (prefix rest l1 l2 : list event) (x : event) :
  Forall (λ e, is_rejected e = false) prefix →
  is_rejected x = true →
  l1 ++ x :: l2 = prefix ++ rest →
  ∃ l, l1 = prefix ++ l ∧ rest = l ++ x :: l2.
Proof.
  intros Hprefix Hx. revert l1.
  induction Hprefix as [|e prefix He _ IH]; intros l1 Heq.
  - by exists l1.
  - destruct l1 as [|e1 l1]; simpl in *; simplify_eq; [congruence|].
    destruct (IH l1) as (l & -> & ->); [done|]. by exists l.
Qed.

(** A rejection in the log of the batches: the run rejects; the rejection
    is that of a fetch of the last batch that was started; what follows it
    are the other fetches of that batch settling. *)
Lemma fetch_batches_rejection order chunks groups b q l1 l2 :
  (fetch_batches order 0 chunks groups).1 = l1 ++ EvFetchRejected b q :: l2 →
  (fetch_batches order 0 chunks groups).2 = Err
  ∧ fetchWPGQLContentNodes q = Err
  ∧ Forall (λ e, batch_no e ≤ b) (l1 ++ l2)
  ∧ Forall (λ e, ∃ q', e = settle b q') l2.
Proof.
  destruct (fetch_batches_log order 0 chunks groups)
    as (k & tail & -> & Hres).
  pose proof (batches_log_below order 0 (take k chunks)) as Hbelow.
  intros Hsplit.
  destruct ((fetch_batches order 0 chunks groups).2) as [groups'|].
  { destruct Hres as [_ ->]. rewrite app_nil_r in Hsplit.
    rewrite Hsplit, Forall_app, Forall_cons in Hbelow.
    by destruct Hbelow as (_ & [_ ?] & _). }
  destruct Hres as (queries & Hlook & ->). simpl in Hsplit.
  pose proof (lookup_lt_Some _ _ _ Hlook) as Hk.
  rewrite length_take in Hbelow.
  rewrite app_assoc in Hsplit. symmetry in Hsplit.
  apply split_after_prefix in Hsplit as (l & -> & Hsettled); [|  |done].
  - assert (Hall : Forall (λ e, ∃ q', e = settle k q'
                                     ∧ batch_no e = k)
                     (l ++ EvFetchRejected b q :: l2)).
    { rewrite <-Hsettled. apply Forall_forall.
      intros e (q' & -> & _)%list_elem_of_fmap. exists q'. split; [done|].
      by destruct (settle_cases k q') as [[_ ->]|[_ ->]]. }
    rewrite Forall_app, Forall_cons in Hall.
    destruct Hall as (Hl & (q0 & Hq0 & Hb) & Hl2). simpl in Hb. subst b.
    split_and!; [done| | |].
    + destruct (settle_cases k q0) as [[_ Hs]|[Herr Hs]];
        rewrite Hs in Hq0; by simplify_eq.
    + rewrite <-!app_assoc, !Forall_app. split_and!.
      * eapply Forall_impl; [exact Hbelow|]. simpl. intros e [? _]. lia.
      * apply Forall_forall. by intros e (q' & -> & _)%list_elem_of_fmap.
      * eapply Forall_impl; [exact Hl|]. simpl. intros e (_ & _ & ->). lia.
      * eapply Forall_impl; [exact Hl2|]. simpl. intros e (_ & _ & ->). lia.
    + eapply Forall_impl; [exact Hl2|]. simpl. intros e (q' & -> & _).
      by exists q'.
  - rewrite Forall_app. split.
    + eapply Forall_impl; [exact Hbelow|]. by intros e [_ ?].
    + apply Forall_forall. by intros e (q' & -> & _)%list_elem_of_fmap.
Qed.

Lemma createGatsbyNodes_stage sched groups :
  Forall (λ e, 1 ≤ stage e ≤ 2)
         (createGatsbyNodesFromWPGQLContentNodes sched groups).1.
Proof.
  destruct (createGatsbyNodes_cases sched groups)
    as [->|(tail & -> & Htail)].
  - repeat constructor.
  - rewrite Forall_app. split.
    + eapply Forall_impl; [apply materialized_stage|]. simpl. lia.
    + eapply Forall_impl; [apply Htail|]. simpl. lia.
Qed.

(** Without the expansion nothing was collected. *)
Lemma no_expansion_no_references sched groups :
  negb mediaItemLazyNodes
  && (0 <? length (referencedMediaItemNodeIds
                     (store (onIdle sched (tasks_of groups) empty_store))))%nat
  = false →
  referencedMediaItemNodeIds
    (store (onIdle sched (tasks_of groups) empty_store)) = [].
Proof.
  intros Hcond. destruct mediaItemLazyNodes eqn:Hlazy.
  - rewrite onIdle_referenced. by apply foldl_scan_lazy.
  - simpl in Hcond. apply Nat.ltb_ge in Hcond.
    by destruct (referencedMediaItemNodeIds _); simpl in *; [|lia].
Qed.

End FetchExtras.

(** X12: [getGatsbyNodeTypeNames] lists the node type names of exactly the
    entries of the catalog that are not excluded; in particular the type of
    every entry a run fetches upfront is listed. *)
Theorem node_type_names_listed `{Collaborators} order :
  (∀ name,
     name ∈ getGatsbyNodeTypeNames
     ↔ ∃ q, q ∈ nodeQueries ∧ exclude (settings q) = false
            ∧ nodesTypeName (typeInfo q) = name)
  ∧ (∀ b q,
       EvFetchStart b q ∈ (fetchWPGQLContentNodesByContentType order).1 →
       nodesTypeName (typeInfo q) ∈ getGatsbyNodeTypeNames).
Proof.
  assert (Hnames : ∀ name,
            name ∈ getGatsbyNodeTypeNames
            ↔ ∃ q, q ∈ nodeQueries ∧ exclude (settings q) = false
                   ∧ nodesTypeName (typeInfo q) = name).
  { intros name. unfold getGatsbyNodeTypeNames. rewrite list_elem_of_fmap.
    split.
    - intros (q & -> & [Hq Hex]%elem_of_getContentTypeQueryInfos).
      by exists q.
    - intros (q & Hq & Hex & <-). exists q.
      by rewrite elem_of_getContentTypeQueryInfos. }
  split; [done|]. intros b q Hstart. apply Hnames. exists q.
  unfold fetchWPGQLContentNodesByContentType in Hstart.
  destruct (fetch_batches_spec order 0
              (chunk getContentTypeQueryInfos chunkSize) [])
    as (_ & _ & _ & Hfrom).
  destruct (Hfrom b q Hstart) as (queries & Hqs & Hq).
  destruct (fetched_is_eligible q queries Hqs Hq) as [Hin [Hex _]].
  done.
Qed.

(** X13: when every list query of a content type resolves,
    [fetchWPGQLContentNodes] resolves to the records of all its list queries
    in the order of the queries, under the singular and plural name of the
    type; and to false when there is no record at all. *)
Theorem fetch_concatenates_list_queries `{Collaborators} q pages :
  Forall2 (λ nodeListQuery records,
             paginatedWpNodeFetch (page_args q nodeListQuery) = Ok records)
          (nodeListQueries q) pages →
  fetchWPGQLContentNodes q
  = Ok match concat pages with
       | [] => None
       | _ :: _ =>
           Some {| singular := singularName (typeInfo q);
                   plural := pluralName (typeInfo q);
                   allNodesOfContentType := concat pages |}
       end.
Proof.
  intros Hall. unfold fetchWPGQLContentNodes.
  rewrite (fetch_list_queries_resolved q _ pages [] Hall). simpl.
  by destruct (concat pages).
Qed.

Lemma fetch_concatenates_list_queries_witness :
  let H := Demo.host false None Demo.catalog in
  fetchWPGQLContentNodes Demo.posts = Ok (Some Demo.posts_group).
Proof.
  intros H.
  apply (fetch_concatenates_list_queries Demo.posts [[Demo.post1; Demo.post2]]).
  repeat constructor.
Defined.

(** X14: [fetchWPGQLContentNodes] rejects exactly when one of the list
    queries of the type rejects. *)
Theorem fetch_rejects_iff_list_query_rejects `{Collaborators} q :
  fetchWPGQLContentNodes q = Err
  ↔ ∃ nodeListQuery,
      nodeListQuery ∈ nodeListQueries q
      ∧ paginatedWpNodeFetch (page_args q nodeListQuery) = Err.
Proof.
  rewrite <-(fetch_list_queries_rejected q (nodeListQueries q) []).
  unfold fetchWPGQLContentNodes.
  destruct (fetch_list_queries q (nodeListQueries q) []) as [records|];
    [|done].
  by destruct (0 <? length records)%nat.
Qed.

(** X15: with a batch size of at least one,
    [fetchWPGQLContentNodesByContentType] rejects exactly when the fetch of
    some eligible entry of the catalog rejects. *)
Theorem run_rejects_iff_eligible_fetch_rejects `{Collaborators} order :
  (1 ≤ chunkSize)%Z →
  (fetchWPGQLContentNodesByContentType order).2 = Err
  ↔ ∃ q, q ∈ nodeQueries ∧ eligible q ∧ fetchWPGQLContentNodes q = Err.
Proof.
  intros Hsize. unfold fetchWPGQLContentNodesByContentType.
  destruct (fetch_batches_spec order 0
              (chunk getContentTypeQueryInfos chunkSize) [])
    as (Hlog & Hall & _).
  split.
  - intros Hrej.
    destruct (rejecting_entry_or_none
                (chunk getContentTypeQueryInfos chunkSize ≫= fetched_upfront))
      as [Hok|(q & (queries & Hq & Hqs)%list_elem_of_bind & Herr)].
    + rewrite (Hlog Hok) in Hrej. done.
    + exists q. by destruct (fetched_is_eligible q queries Hqs Hq).
  - intros (q & Hq & (Hex & Hlazy & Hmedia) & Herr).
    destruct (fetch_batches order 0 _ []).2 as [groups|] eqn:Hres; [|done].
    specialize (Hall groups eq_refl).
    rewrite Forall_forall in Hall. destruct (Hall q); [|done].
    apply elem_of_bind_fetched_upfront. rewrite chunk_concat by done.
    apply elem_of_fetched_upfront. split.
    + by apply elem_of_getContentTypeQueryInfos.
    + by apply skipped_upfront_false.
Qed.

Lemma run_rejects_iff_eligible_fetch_rejects_witness :
  let H := Demo.host false None [Demo.posts; Demo.events] in
  (fetchWPGQLContentNodesByContentType Demo.in_order).2 = Err.
Proof.
  intros H.
  apply (run_rejects_iff_eligible_fetch_rejects Demo.in_order).
  - vm_compute. discriminate.
  - exists Demo.events. split_and!.
    + apply list_elem_of_further, list_elem_of_here.
    + split_and!; [reflexivity..|discriminate].
    + reflexivity.
Defined.

(** X16: a rejection in the log of [fetchWPGQLContentNodesByContentType]
    means that the run rejects and that the fetch logged as rejected did
    reject; no batch after that of the rejection is ever run; and what the
    log holds after the rejection are the other fetches of the same batch,
    which were in flight, settling: no fetch is started any more. *)
Theorem no_batch_after_rejection `{Collaborators} order b q l1 l2 :
  (fetchWPGQLContentNodesByContentType order).1
  = l1 ++ EvFetchRejected b q :: l2 →
  (fetchWPGQLContentNodesByContentType order).2 = Err
  ∧ fetchWPGQLContentNodes q = Err
  ∧ Forall (λ e, batch_no e ≤ b) (l1 ++ l2)
  ∧ Forall (λ e, ∃ q', e = settle b q') l2
  ∧ (∀ b' q', EvFetchStart b' q' ∉ l2).
Proof.
  unfold fetchWPGQLContentNodesByContentType. intros Hlog.
  destruct (fetch_batches_rejection order _ [] b q l1 l2 Hlog)
    as (Hres & Herr & Hbatch & Hsettled).
  split_and!; [done..|].
  intros b' q' Hin. rewrite Forall_forall in Hsettled.
  destruct (Hsettled _ Hin) as (q0 & Hq0).
  by destruct (settle_cases b q0) as [[_ Hs]|[_ Hs]]; rewrite Hs in Hq0.
Qed.

Lemma no_batch_after_rejection_witness :
  let H := Demo.host false (Some 2%Z) [Demo.events; Demo.posts; Demo.pages] in
  (fetchWPGQLContentNodesByContentType Demo.in_order).1
  = [EvFetchStart 0 Demo.events; EvFetchStart 0 Demo.posts]
    ++ EvFetchRejected 0 Demo.events :: [EvFetchDone 0 Demo.posts]
  ∧ (fetchWPGQLContentNodesByContentType Demo.in_order).2 = Err
  ∧ Forall (λ e, ∃ q', e = settle 0 q') [EvFetchDone 0 Demo.posts]
  ∧ (∀ b' q', EvFetchStart b' q' ∉ [EvFetchDone 0 Demo.posts]).
Proof.
  intros H.
  assert (Hlog : (fetchWPGQLContentNodesByContentType Demo.in_order).1
                 = [EvFetchStart 0 Demo.events; EvFetchStart 0 Demo.posts]
                   ++ EvFetchRejected 0 Demo.events
                      :: [EvFetchDone 0 Demo.posts])
    by (vm_compute; reflexivity).
  split; [exact Hlog|].
  destruct (no_batch_after_rejection Demo.in_order 0 Demo.events _ _ Hlog)
    as (Hres & _ & _ & Hsettled & Hstarts).
  split; [exact Hres|]. split; [exact Hsettled|exact Hstarts].
Defined.

(** X17: with a batch size of at least one, a run of
    [fetchWPGQLContentNodesByContentType] that resolves returns, up to their
    order, the groups of the eligible entries of the catalog that have
    records: the batch size and the order in which the fetches settle change
    the order of the groups only. *)
Theorem groups_of_eligible_entries `{Collaborators} order groups :
  (1 ≤ chunkSize)%Z →
  (fetchWPGQLContentNodesByContentType order).2 = Ok groups →
  groups ≡ₚ omap group_of (fetched_upfront getContentTypeQueryInfos).
Proof.
  intros Hsize Hok. destruct (fetch_resolved_log order groups Hok) as [_ ->].
  rewrite batches_completed_perm. by rewrite chunk_concat.
Qed.

Lemma groups_of_eligible_entries_witness :
  let H := Demo.host false (Some 2%Z) Demo.catalog in
  [Demo.posts_group; Demo.pages_group; Demo.menus_group]
  ≡ₚ omap group_of (fetched_upfront getContentTypeQueryInfos).
Proof.
  intros H.
  apply (groups_of_eligible_entries Demo.lifo_batches).
  - vm_compute. discriminate.
  - vm_compute. reflexivity.
Defined.

(** X18: with a batch size below one [fetchAndCreateAllNodes] fetches and
    materializes nothing: when the query of the general settings resolves
    and its url fits into the expression of lines 132-136, the run reads
    the general settings and writes an empty ledger to the cache, and that
    is all it does. *)
Theorem nothing_created_below_one `{Collaborators} order sched wpUrl :
  (chunkSize < 1)%Z →
  generalSettingsUrl = Ok wpUrl →
  newRegExp (anchorTagRegex_source wpUrl) "gim" = true →
  (fetchAndCreateAllNodes order sched).1
  = [EvGeneralSettings; EvCacheSet CREATED_NODE_IDS []].
Proof.
  intros Hsize Hurl Hre. unfold fetchAndCreateAllNodes.
  rewrite (no_fetch_below_one order Hsize).
  unfold createGatsbyNodesFromWPGQLContentNodes. rewrite Hurl, Hre.
  change (onIdle sched (tasks_of []) empty_store)
    with (initial_queue [] empty_store).
  cbn [initial_queue store empty_store referencedMediaItemNodeIds length].
  by rewrite andb_false_r.
Qed.

Lemma nothing_created_below_one_witness :
  let H := Demo.host false (Some 0%Z) Demo.catalog in
  (fetchAndCreateAllNodes Demo.in_order Demo.fifo).1
  = [EvGeneralSettings; EvCacheSet CREATED_NODE_IDS []].
Proof.
  intros H.
  apply (nothing_created_below_one Demo.in_order Demo.fifo "https://wp.test");
    [vm_compute|..]; reflexivity.
Defined.

(** X19: [fetchAndCreateAllNodes] writes to the cache only under the key
    [CREATED_NODE_IDS], only after the fetches and the materialization have
    both resolved, and what it writes is the result of the
    materialization. *)
Theorem cache_written_only_after_success `{Collaborators} order sched key ids :
  EvCacheSet key ids ∈ (fetchAndCreateAllNodes order sched).1 →
  key = CREATED_NODE_IDS
  ∧ ∃ groups,
      (fetchWPGQLContentNodesByContentType order).2 = Ok groups
      ∧ (createGatsbyNodesFromWPGQLContentNodes sched groups).2 = Ok ids.
Proof.
  unfold fetchAndCreateAllNodes. intros Hin.
  pose proof (fetch_stage order) as Hfetch.
  destruct (fetchWPGQLContentNodesByContentType order) as [l1 [groups|]];
    simpl in *.
  - pose proof (createGatsbyNodes_stage sched groups) as Hcreate.
    destruct (createGatsbyNodesFromWPGQLContentNodes sched groups)
      as [l2 [ids'|]] eqn:Hres; simpl in *.
    + rewrite !elem_of_app, list_elem_of_singleton in Hin.
      destruct Hin as [Hin|[Hin|Heq]].
      * rewrite Forall_forall in Hfetch. apply Hfetch in Hin. simpl in Hin. lia.
      * rewrite Forall_forall in Hcreate. apply Hcreate in Hin.
        simpl in Hin. lia.
      * simplify_eq. split; [done|]. exists groups. by rewrite Hres.
    + rewrite elem_of_app in Hin. destruct Hin as [Hin|Hin].
      * rewrite Forall_forall in Hfetch. apply Hfetch in Hin. simpl in Hin. lia.
      * rewrite Forall_forall in Hcreate. apply Hcreate in Hin.
        simpl in Hin. lia.
  - rewrite Forall_forall in Hfetch. apply Hfetch in Hin. simpl in Hin. lia.
Qed.

Lemma cache_written_only_after_success_witness :
  let H := Demo.host false None [Demo.tags] in
  "CREATED_NODE_IDS" = CREATED_NODE_IDS
  ∧ ∃ groups,
      (fetchWPGQLContentNodesByContentType Demo.in_order).2 = Ok groups
      ∧ (createGatsbyNodesFromWPGQLContentNodes Demo.fifo groups).2 = Ok [].
Proof.
  intros H.
  apply (cache_written_only_after_success Demo.in_order Demo.fifo).
  apply (list_elem_of_lookup_2 _ 3). vm_compute. reflexivity.
Defined.

(** X20: when [fetchAndCreateAllNodes] resolves, the last thing it did was
    to write to the cache, and the ids it wrote are, up to their order, the
    ids pushed by the units of all fetched records followed by the
    referenced media item ids. *)
Theorem persisted_ids `{Collaborators} order sched :
  (fetchAndCreateAllNodes order sched).2 = Ok () →
  ∃ groups ids l,
    (fetchWPGQLContentNodesByContentType order).2 = Ok groups
    ∧ (fetchAndCreateAllNodes order sched).1
      = l ++ [EvCacheSet CREATED_NODE_IDS ids]
    ∧ ids
      ≡ₚ (tasks_of groups ≫= unit_created)
         ++ map VStr
              (foldl (λ r t, scan_references (wpgqlNodesGroup t)
                               (derive_path (node t)) r)
                     [] (tasks_of groups)).
Proof.
  unfold fetchAndCreateAllNodes. intros Hok.
  destruct (fetchWPGQLContentNodesByContentType order) as [l1 [groups|]];
    simpl in *; [|done].
  pose proof (onIdle_created sched (tasks_of groups) empty_store) as Hcreated.
  pose proof (onIdle_referenced sched (tasks_of groups) empty_store) as Hrefs.
  pose proof (no_expansion_no_references sched groups) as Hnone.
  simpl in Hcreated, Hrefs.
  unfold createGatsbyNodesFromWPGQLContentNodes in *.
  destruct generalSettingsUrl as [wpUrl|]; simpl in *; [|done].
  destruct (newRegExp _ _); simpl in *; [|done].
  destruct (negb mediaItemLazyNodes && _).
  - destruct (fetchReferencedMediaItemsAndCreateNodes _); simpl in *; [|done].
    eexists groups, _, _. split_and!; [done| |].
    + by rewrite app_assoc.
    + by rewrite <-Hrefs, Hcreated.
  - simpl in *. eexists groups, _, _. split_and!; [done| |].
    + by rewrite app_assoc.
    + rewrite <-Hrefs, Hnone by done. simpl. by rewrite app_nil_r.
Qed.

Lemma persisted_ids_witness :
  let H := Demo.host false None Demo.catalog in
  ∃ groups ids l,
    (fetchWPGQLContentNodesByContentType Demo.in_order).2 = Ok groups
    ∧ (fetchAndCreateAllNodes Demo.in_order Demo.lifo).1
      = l ++ [EvCacheSet CREATED_NODE_IDS ids]
    ∧ ids
      ≡ₚ (tasks_of groups ≫= unit_created)
         ++ map VStr
              (foldl (λ r t, scan_references (wpgqlNodesGroup t)
                               (derive_path (node t)) r)
                     [] (tasks_of groups)).
Proof.
  intros H. apply (persisted_ids Demo.in_order Demo.lifo).
  vm_compute. reflexivity.
Defined.

(** X21: when the url of the general settings does not fit into the
    expression of lines 132-136, [createGatsbyNodesFromWPGQLContentNodes]
    rejects right after the query of the general settings, before anything
    is queued; [fetchAndCreateAllNodes] then rejects as well, having done
    nothing but the upfront fetches and that query: no node is committed, no
    expansion is fetched, and nothing is written to the cache. *)
Theorem pattern_breaking_url_queues_nothing `{Collaborators}
    order sched groups wpUrl :
  generalSettingsUrl = Ok wpUrl →
  newRegExp (anchorTagRegex_source wpUrl) "gim" = false →
  createGatsbyNodesFromWPGQLContentNodes sched groups
  = ([EvGeneralSettings], Err)
  ∧ (fetchAndCreateAllNodes order sched).2 = Err
  ∧ Forall (λ e, stage e = 0 ∨ e = EvGeneralSettings)
           (fetchAndCreateAllNodes order sched).1.
Proof.
  intros Hurl Hre.
  assert (Hstop : ∀ groups',
            createGatsbyNodesFromWPGQLContentNodes sched groups'
            = ([EvGeneralSettings], Err)).
  { intros groups'. unfold createGatsbyNodesFromWPGQLContentNodes.
    by rewrite Hurl, Hre. }
  split; [done|]. unfold fetchAndCreateAllNodes.
  pose proof (fetch_stage order) as Hfetch.
  destruct (fetchWPGQLContentNodesByContentType order) as [l1 [groups'|]];
    simpl in *.
  - rewrite Hstop. simpl. split; [done|]. rewrite Forall_app. split.
    + eapply Forall_impl; [exact Hfetch|]. by left.
    + constructor; [by right|constructor].
  - split; [done|]. eapply Forall_impl; [exact Hfetch|]. by left.
Qed.

Lemma pattern_breaking_url_queues_nothing_witness :
  let H := Demo.broken_url_host in
  createGatsbyNodesFromWPGQLContentNodes Demo.fifo [Demo.posts_group]
  = ([EvGeneralSettings], Err)
  ∧ (fetchAndCreateAllNodes Demo.in_order Demo.fifo).2 = Err
  ∧ Forall (λ e, stage e = 0 ∨ e = EvGeneralSettings)
           (fetchAndCreateAllNodes Demo.in_order Demo.fifo).1.
Proof.
  intros H.
  apply (pattern_breaking_url_queues_nothing Demo.in_order Demo.fifo
           [Demo.posts_group] "https://wp.test/("); reflexivity.
Defined.
